(** * PoCI V3.1 lineage ledger: a shallow embedding and its properties

    The development follows the layout of the Python sources:
    - [crypto_utils.py]  -> Module [CryptoUtils]
    - [lineage.py]       -> Module [Lineage]
    - [controller.py]    -> Module [Controller]
    - [models.py]        -> Module [Models]
    - [run_stress.py]    -> Module [Stress]
    The predicates and runners that the statements need come next (Modules
    [Ledger], [Reputation], [Audit], [Emission], [Scenario]), the lemmas
    and theorems last.

    Conventions of the embedding.
    - A Python [int] is a [Z] (unbounded, as in Python).
    - A Python [str] is a Rocq [string] holding its UTF-8 encoding, so that
      [s.encode("utf-8")] is the list of bytes of the string.
    - Python [bytes] is [list byte].
    - A method that mutates [self] and may raise is a function of type
      [M S A]: it takes the state [S] and returns the state reached together
      with either a value or the exception raised.  A mutation made before a
      [raise] stays in the returned state, as in Python.
    - The external libraries ([hashlib], [nacl]) and the environment (clock,
      random draws, key generation) are parameters: the class [CryptoLib]
      for the primitives, explicit arguments for the rest. *)

From Stdlib Require Import ZArith List Strings.String Strings.Ascii Strings.Byte QArith Lia.
From Stdlib Require Import Decimal DecimalString.
From stdpp Require Import sorting functions gmap strings list.

Local Open Scope string_scope.
Local Open Scope list_scope.
Local Open Scope Z_scope.

(** ** Exceptions and the state-and-exception monad *)

Inductive Exn : Type :=
  (* lineage.py: raise ValueError(f"Index mismatch: ...") *)
  | IndexMismatch (got expected : Z)
  (* lineage.py: raise ValueError(f"prev_hash mismatch for ...") *)
  | PrevHashMismatch (model : string) (got expected : string)
  (* sqlite3.IntegrityError: PRIMARY KEY constraint on events.idx *)
  | IntegrityError (idx : Z)
  (* OverflowError: Python int too large to convert to SQLite INTEGER *)
  | OverflowError
  (* nacl.exceptions.ValueError: "The signature must be exactly 64 bytes long" *)
  | NaClValueError
  (* KeyError of a dict subscript *)
  | KeyError (key : string).

Inductive Result (A : Type) : Type :=
  | Ok (a : A)
  | Raise (e : Exn).
Arguments Ok {A} a.
Arguments Raise {A} e.

Definition M (S A : Type) : Type := S -> S * Result A.

Definition ret {S A} (a : A) : M S A := fun s => (s, Ok a).
Definition raise {S A} (e : Exn) : M S A := fun s => (s, Raise e).
Definition bind {S A B} (c : M S A) (k : A -> M S B) : M S B :=
  fun s => match c s with
           | (s1, Ok a) => k a s1
           | (s1, Raise e) => (s1, Raise e)
           end.
Definition gets {S A} (f : S -> A) : M S A := fun s => (s, Ok (f s)).
Definition modify {S} (f : S -> S) : M S unit := fun s => (f s, Ok tt).
(** Running a pure-in-[S] computation of a component inside a larger state. *)
Definition lift_result {S A} (r : Result A) : M S A := fun s => (s, r).

Notation "'let*' x ':=' c 'in' k" := (bind c (fun x => k))
  (at level 10, x name, c at level 100, k at level 200).
Notation "c ';;' k" := (bind c (fun _ => k))
  (at level 100, k at level 200, right associativity).

Definition is_ok {A} (r : Result A) : bool :=
  match r with Ok _ => true | Raise _ => false end.

(** ** Python helpers *)

(** [str(n)] for an [int]: decimal digits, a leading [-] when negative. *)
Definition str_int (n : Z) : string := NilZero.string_of_int (Z.to_int n).

(** [s.encode("utf-8")]. *)
Definition encode_utf8 (s : string) : list byte := list_byte_of_string s.

(** [s * n] for a string [s]. *)
Fixpoint str_repeat (s : string) (n : nat) : string :=
  match n with
  | O => ""
  | S n' => s +:+ str_repeat s n'
  end.

(** ** External primitives

    [blake2b_hexdigest bs] is [h = hashlib.blake2b(digest_size=32)] fed the
    bytes [bs] (in any number of [update] calls) followed by [h.hexdigest()].
    [ed25519_sign sk msg] is [sk.sign(msg).signature] of PyNaCl and
    [crypto_sign_open vk smessage] tells whether libsodium accepts the
    combined signed message [signature + msg] under [vk]. *)
Class CryptoLib : Type := {
  blake2b_hexdigest : list byte -> string;
  ed25519_sign : list byte -> list byte -> list byte;
  crypto_sign_open : list byte -> list byte -> bool
}.

(** An instance on which the code can be run: a small checksum stands for
    the digest, and for the signature (the verifying key being the signing
    key).  It is used to evaluate the code on sample inputs only; every
    general statement below is about an arbitrary [CryptoLib]. *)
Definition checksum (bs : list byte) : N :=
  foldl (fun acc b => ((acc * 31 + Byte.to_N b) mod 251)%N) 7%N bs.

Definition sample_lib : CryptoLib := {|
  blake2b_hexdigest := fun bs =>
    str_repeat "0" 61 +:+ str_int (Z.of_N (checksum bs) + 100);
  ed25519_sign := fun sk msg =>
    replicate 64 (default "000"%byte (Byte.of_N (checksum (sk ++ msg))));
  crypto_sign_open := fun vk smessage =>
    bool_decide
      (Byte.to_N <$> take 64 smessage
       = replicate 64 (checksum (vk ++ drop 64 smessage)))
|}.

(** * crypto_utils.py *)
Module CryptoUtils.

(** [PayloadType = Union[str, bytes]] *)
Inductive PayloadType : Type :=
  | PStr (s : string)
  | PBytes (b : list byte).

Definition _to_bytes (payload : PayloadType) : list byte :=
  match payload with
  | PBytes b => b
  | PStr s => encode_utf8 s
  end.

(** [nacl.bindings.crypto_sign_BYTES] *)
Definition crypto_sign_BYTES : nat := 64.

Section WithLib.
Context `{CryptoLib}.

Definition commit_payload (payload : PayloadType) : string :=
  let pb := _to_bytes payload in
  blake2b_hexdigest pb.

(** The successive [h.update(...)] calls feed the concatenation. *)
Definition hash_payload (model_id : string) (index : Z) (prev_hash : string)
    (payload : PayloadType) (ts : Z) : string :=
  let pb := _to_bytes payload in
  let sep := encode_utf8 "|" in
  blake2b_hexdigest
    (encode_utf8 model_id ++ sep ++ encode_utf8 (str_int index) ++ sep
       ++ encode_utf8 prev_hash ++ sep ++ pb ++ sep
       ++ encode_utf8 (str_int ts)).

Definition sign_event (message_bytes : list byte) (sk : list byte) : list byte :=
  ed25519_sign sk message_bytes.

(** The ways a call [vk.verify(message_bytes, signature)] of PyNaCl ends:
    it returns, it raises [nacl.exceptions.BadSignatureError], or it raises
    something else. *)
Inductive NaClOutcome : Type :=
  | Verified
  | BadSignatureError
  | OtherError (e : Exn).

(** [VerifyKey.verify] of PyNaCl (library code, not part of the repository)
    given a detached signature: it first checks the length of the signature
    and raises [nacl.exceptions.ValueError] when it is not
    [crypto_sign_BYTES]; then it hands [signature + message] to
    [crypto_sign_open], which raises [BadSignatureError] on a forged or
    corrupt signature and returns the message otherwise. *)
Definition VerifyKey_verify (vk : list byte) (smessage signature : list byte)
    : NaClOutcome :=
  if negb (length signature =? crypto_sign_BYTES)%nat then OtherError NaClValueError
  else if crypto_sign_open vk (signature ++ smessage) then Verified
  else BadSignatureError.

(** [try: vk.verify(...); return True / except BadSignatureError: return False] *)
Definition verify_signature (vk : list byte) (message_bytes signature : list byte)
    : Result bool :=
  match VerifyKey_verify vk message_bytes signature with
  | Verified => Ok true
  | BadSignatureError => Ok false
  | OtherError e => Raise e
  end.

End WithLib.
End CryptoUtils.

(** * lineage.py *)
Module Lineage.
Import CryptoUtils.

Definition GENESIS : string := str_repeat "0" 64.

Record Event : Type := mkEvent {
  model_id : string;
  index : Z;
  ts : Z;
  payload : string;
  payload_hash : string;
  payload_commit : string;
  prev_hash : string;
  event_hash : string;
  signature : list byte
}.

(** f"{model_id}|{index}|{prev_hash}|{event_hash}|{payload_commit}|{ts}".encode("utf-8") *)
Definition canonical_bytes (self : Event) : list byte :=
  encode_utf8
    (model_id self +:+ "|" +:+ str_int (index self) +:+ "|" +:+ prev_hash self
       +:+ "|" +:+ event_hash self +:+ "|" +:+ payload_commit self +:+ "|"
       +:+ str_int (ts self)).

(** ** The [events] table

    A row of the table is an [Event] (the columns are its fields, [idx]
    being [index]).  [rows] is what the connection sees, in insertion order;
    [durable] is the content as of the last [conn.commit()]. *)
Record LineageStore : Type := mkStore {
  rows : list Event;
  durable : list Event;
  autocommit : bool;
  _pending : Z
}.

(** [LineageStore(autocommit)] opened on a database file holding [disk]. *)
Definition LineageStore_init (disk : list Event) (autocommit : bool) : LineageStore :=
  {| rows := disk; durable := disk; autocommit := autocommit; _pending := 0 |}.

(** [MAX(idx)], [NULL] on an empty table. *)
Definition sql_max_idx (t : list Event) : option Z :=
  foldr (fun r acc => match acc with
                      | None => Some (index r)
                      | Some m => Some (Z.max (index r) m)
                      end) None t.

(** [WHERE model_id = ?] *)
Definition sql_where_model (m : string) (t : list Event) : list Event :=
  filter (fun r => model_id r = m) t.

(** [ORDER BY idx] *)
Fixpoint sql_insert_by_idx (r : Event) (t : list Event) : list Event :=
  match t with
  | [] => [r]
  | r' :: t' => if index r <=? index r' then r :: t
                else r' :: sql_insert_by_idx r t'
  end.
Definition sql_order_by_idx (t : list Event) : list Event :=
  foldr sql_insert_by_idx [] t.

(** [ORDER BY idx DESC LIMIT 1]; [idx] is the primary key, so the descending
    order is the reverse of the ascending one. *)
Definition sql_order_by_idx_desc_limit_1 (t : list Event) : option Event :=
  head (reverse (sql_order_by_idx t)).

(** An [int] that can be bound to an [INTEGER] column: the sqlite3 module
    takes the signed 64-bit range and raises [OverflowError] outside it. *)
Definition sqlite_int (z : Z) : bool :=
  (- 2 ^ 63 <=? z) && (z <? 2 ^ 63).

(** The two [int] parameters of the [INSERT], [ev.index] and [ev.ts]. *)
Definition sql_bindable (r : Event) : bool :=
  sqlite_int (index r) && sqlite_int (ts r).

(** [INSERT INTO events ...]: binding the parameters comes first and raises
    [OverflowError] for an [int] out of range; the insert itself is refused
    when the primary key is taken.  Nothing is stored in either case. *)
Definition sql_insert (r : Event) (t : list Event) : Result (list Event) :=
  if negb (sql_bindable r) then Raise OverflowError
  else if existsb (fun r' => index r' =? index r) t then Raise (IntegrityError (index r))
  else Ok (t ++ [r]).

Definition next_index (self : LineageStore) : Z :=
  match sql_max_idx (rows self) with
  | Some m => m + 1
  | None => 0
  end.

Definition last_hash (self : LineageStore) (m : string) : string :=
  match sql_order_by_idx_desc_limit_1 (sql_where_model m (rows self)) with
  | Some row => event_hash row
  | None => GENESIS
  end.

Definition last_ts (self : LineageStore) (m : string) : option Z :=
  match sql_order_by_idx_desc_limit_1 (sql_where_model m (rows self)) with
  | Some row => Some (ts row)
  | None => None
  end.

Definition set_rows (t : list Event) (self : LineageStore) : LineageStore :=
  {| rows := t; durable := durable self; autocommit := autocommit self;
     _pending := _pending self |}.
Definition set_pending (n : Z) (self : LineageStore) : LineageStore :=
  {| rows := rows self; durable := durable self; autocommit := autocommit self;
     _pending := n |}.
(** [self.conn.commit()] *)
Definition conn_commit (self : LineageStore) : LineageStore :=
  {| rows := rows self; durable := rows self; autocommit := autocommit self;
     _pending := _pending self |}.

Definition append (ev : Event) : M LineageStore unit :=
  let* expected_idx := gets next_index in
  if negb (index ev =? expected_idx) then
    raise (IndexMismatch (index ev) expected_idx)
  else
  let* expected_prev := gets (fun self => last_hash self (model_id ev)) in
  if negb (String.eqb (prev_hash ev) expected_prev) then
    raise (PrevHashMismatch (model_id ev) (prev_hash ev) expected_prev)
  else
  let* t := gets rows in
  let* t' := lift_result (sql_insert ev t) in
  modify (set_rows t') ;;
  modify (fun self => set_pending (_pending self + 1) self) ;;
  let* ac := gets autocommit in
  let* pending := gets _pending in
  if ac && (1000 <=? pending) then
    modify conn_commit ;;
    modify (set_pending 0)
  else ret tt.

Definition get_chain (self : LineageStore) (m : string) : list Event :=
  sql_order_by_idx (sql_where_model m (rows self)).

Definition all_events (self : LineageStore) : list Event :=
  sql_order_by_idx (rows self).

Section WithLib.
Context `{CryptoLib}.

Definition rebuild_event (model_id : string) (index : Z) (payload : string)
    (prev_hash : string) (ts : Z) (signature : list byte) : Event :=
  let payload_commit := commit_payload (PStr payload) in
  let ev_hash := hash_payload model_id index prev_hash (PStr payload) ts in
  let payload_hash := ev_hash in
  {| model_id := model_id; index := index; ts := ts; payload := payload;
     payload_hash := payload_hash; payload_commit := payload_commit;
     prev_hash := prev_hash; event_hash := ev_hash; signature := signature |}.

End WithLib.
End Lineage.

(** * controller.py *)
Module Controller.

(** The inner dict [{"weight": w, "theta": t}] of one model. *)
Record Entry : Type := mkEntry {
  weight : Z;
  theta : Z
}.

(** [self.state] maps a model id to a dict object.  Dict objects are
    mutated in place through whatever name reaches them, so they live in a
    heap: [state] holds addresses, [heap] the contents, [next] the first
    address not yet allocated. *)
Record Controller : Type := mkController {
  state : gmap string nat;
  heap : nat -> Entry;
  next : nat
}.

(** [Controller()] *)
Definition Controller_init : Controller :=
  {| state := ∅; heap := fun _ => {| weight := 0; theta := 0 |}; next := 0 |}.

(** [self.state[model_id] = {"weight": 1000, "theta": 500}]: a fresh dict
    object is allocated and bound to the key. *)
Definition bind_fresh (model_id : string) (e : Entry) (self : Controller) : Controller :=
  {| state := <[model_id := next self]> (state self);
     heap := <[next self := e]> (heap self);
     next := S (next self) |}.

(** [m[field] = v] on the dict object at address [m]. *)
Definition store_weight (m : nat) (v : Z) (self : Controller) : Controller :=
  {| state := state self;
     heap := <[m := {| weight := v; theta := theta (heap self m) |}]> (heap self);
     next := next self |}.
Definition store_theta (m : nat) (v : Z) (self : Controller) : Controller :=
  {| state := state self;
     heap := <[m := {| weight := weight (heap self m); theta := v |}]> (heap self);
     next := next self |}.

(** [self.state[model_id]] *)
Definition subscript (model_id : string) : M Controller nat :=
  fun self => match state self !! model_id with
              | Some m => (self, Ok m)
              | None => (self, Raise (KeyError model_id))
              end.

Definition _ensure (model_id : string) : M Controller unit :=
  let* known := gets (fun self => bool_decide (is_Some (state self !! model_id))) in
  if negb known then
    modify (bind_fresh model_id {| weight := 1000; theta := 500 |})
  else ret tt.

Definition update (model_id : string) (valid : bool) : M Controller unit :=
  _ensure model_id ;;
  let* m := subscript model_id in
  if valid then
    (let* w := gets (fun self => weight (heap self m)) in
     modify (store_weight m (Z.min 1000 (w + 30)))) ;;
    (let* t := gets (fun self => theta (heap self m)) in
     modify (store_theta m (Z.max 50 (t - 8))))
  else
    (let* w := gets (fun self => weight (heap self m)) in
     modify (store_weight m (Z.max 0 (w - 100)))) ;;
    (let* t := gets (fun self => theta (heap self m)) in
     modify (store_theta m (Z.min 500 (t + 30)))).

Definition get (model_id : string) : M Controller (Z * Z) :=
  _ensure model_id ;;
  let* m := subscript model_id in
  let* w := gets (fun self => weight (heap self m)) in
  let* t := gets (fun self => theta (heap self m)) in
  ret (w, t).

(** What the controller currently records for a model id, without touching
    it (the pairs that [summary] prints). *)
Definition peek (self : Controller) (model_id : string) : option (Z * Z) :=
  match state self !! model_id with
  | Some m => Some (weight (heap self m), theta (heap self m))
  | None => None
  end.

End Controller.

(** * models.py *)
Module Models.
Import CryptoUtils Lineage.

Record BaseModel : Type := mkBaseModel {
  model_id : string;
  sk : list byte;
  vk : list byte;
  _last_ts : Z
}.

(** [BaseModel(model_id)]; [keys] is the pair drawn by [generate_keypair()]. *)
Definition BaseModel_init (model_id : string) (keys : list byte * list byte) : BaseModel :=
  {| model_id := model_id; sk := fst keys; vk := snd keys; _last_ts := 0 |}.

Definition set_last_ts (t : Z) (self : BaseModel) : BaseModel :=
  {| model_id := model_id self; sk := sk self; vk := vk self; _last_ts := t |}.

(** Python's [max(a, b, c)]. *)
Definition max3 (a b c : Z) : Z := Z.max (Z.max a b) c.

(** [now] is the value [now_ts()] returns at this call. *)
Definition _next_ts (store : LineageStore) (now : Z) : M BaseModel Z :=
  let* mid := gets model_id in
  let last_db_ts := last_ts store mid in
  let* last := gets _last_ts in
  let candidate :=
    max3 now (last + 1)
         (match last_db_ts with Some t => t + 1 | None => 0 end) in
  modify (set_last_ts candidate) ;;
  ret candidate.

Section WithLib.
Context `{CryptoLib}.

Definition make_event (store : LineageStore) (payload : string) (cheat : bool)
    (now : Z) : M BaseModel Event :=
  let* mid := gets model_id in
  let idx := next_index store in
  let prev := last_hash store mid in
  let* ts := _next_ts store now in
  let payload_commit := commit_payload (PStr payload) in
  let ev_hash := hash_payload mid idx prev (PStr payload) ts in
  let payload_hash := ev_hash in
  let canonical :=
    encode_utf8 (mid +:+ "|" +:+ str_int idx +:+ "|" +:+ prev +:+ "|"
                   +:+ ev_hash +:+ "|" +:+ payload_commit +:+ "|" +:+ str_int ts) in
  let message_bytes := if negb cheat then canonical else reverse canonical in
  let* key := gets sk in
  let sig := sign_event message_bytes key in
  ret {| Lineage.model_id := mid; index := idx; ts := ts; payload := payload;
         payload_hash := payload_hash; payload_commit := payload_commit;
         prev_hash := prev; event_hash := ev_hash; signature := sig |}.

End WithLib.

(** ** Event objects

    [Event] is a plain (not frozen) dataclass: an event handed to a hook is
    an object that the hook may rewrite.  Event objects therefore live in a
    heap, a list indexed by address; a hook takes and returns an address. *)
Abbreviation EventHeap := (list Event).

(** [Event(...)]: a new object. *)
Definition new_event (e : Event) : M EventHeap nat :=
  fun h => ((h ++ [e]), Ok (length h)).

(** [ev.payload_commit = v], [ev.event_hash = v], [ev.payload_hash = ev.event_hash],
    [ev.payload = ev.payload + suffix] on the object. *)
Definition with_payload_commit (v : string) (e : Event) : Event :=
  {| Lineage.model_id := Lineage.model_id e; index := index e; ts := ts e;
     payload := payload e; payload_hash := payload_hash e; payload_commit := v;
     prev_hash := prev_hash e; event_hash := event_hash e; signature := signature e |}.
Definition with_event_hash (v : string) (e : Event) : Event :=
  {| Lineage.model_id := Lineage.model_id e; index := index e; ts := ts e;
     payload := payload e; payload_hash := payload_hash e;
     payload_commit := payload_commit e;
     prev_hash := prev_hash e; event_hash := v; signature := signature e |}.
Definition payload_hash_from_event_hash (e : Event) : Event :=
  {| Lineage.model_id := Lineage.model_id e; index := index e; ts := ts e;
     payload := payload e; payload_hash := event_hash e;
     payload_commit := payload_commit e;
     prev_hash := prev_hash e; event_hash := event_hash e; signature := signature e |}.
Definition payload_extended (suffix : string) (e : Event) : Event :=
  {| Lineage.model_id := Lineage.model_id e; index := index e; ts := ts e;
     payload := payload e +:+ suffix; payload_hash := payload_hash e;
     payload_commit := payload_commit e;
     prev_hash := prev_hash e; event_hash := event_hash e; signature := signature e |}.

(** An assignment to a field of the object at address [ev]. *)
Definition assign (f : Event -> Event) (ev : nat) : M EventHeap unit :=
  modify (alter f ev).

(** [AttackerModel.mutate_event]: the default hook returns its argument. *)
Definition AttackerModel_mutate_event (ev : nat) : M EventHeap nat := ret ev.

(** An attacker at work: the agent and the event objects made so far. *)
Definition on_agent {A} (c : M BaseModel A) : M (BaseModel * EventHeap) A :=
  fun st => match c (fst st) with (a, r) => ((a, snd st), r) end.
Definition on_heap {A} (c : M EventHeap A) : M (BaseModel * EventHeap) A :=
  fun st => match c (snd st) with (h, r) => ((fst st, h), r) end.

Section Attacker.
Context `{CryptoLib}.

(** [AttackerModel.make_event]: [super().make_event(...)] builds the event,
    a new object, and the result of [self.mutate_event(ev)] is returned;
    [mutate_event] is the hook of the instance's class. *)
Definition AttackerModel_make_event (mutate_event : nat -> M EventHeap nat)
    (store : LineageStore) (payload : string) (cheat : bool) (now : Z)
    : M (BaseModel * EventHeap) nat :=
  let* fields := on_agent (make_event store payload cheat now) in
  let* ev := on_heap (new_event fields) in
  on_heap (mutate_event ev).

End Attacker.
End Models.

(** * run_stress.py *)
Module Stress.
Import CryptoUtils Lineage Models.

Record AnomalyStats : Type := mkStats {
  total_events : Z;
  honest_events : Z;
  attacker_events : Z;
  sig_invalid : Z;
  commit_mismatch : Z;
  eventhash_mismatch : Z;
  bad_events : Z;
  per_model_bad : gmap string Z
}.

(** [AnomalyStats()] *)
Definition AnomalyStats_init : AnomalyStats :=
  {| total_events := 0; honest_events := 0; attacker_events := 0;
     sig_invalid := 0; commit_mismatch := 0; eventhash_mismatch := 0;
     bad_events := 0; per_model_bad := ∅ |}.

Definition incr_total_events (st : AnomalyStats) : AnomalyStats :=
  {| total_events := total_events st + 1; honest_events := honest_events st;
     attacker_events := attacker_events st; sig_invalid := sig_invalid st;
     commit_mismatch := commit_mismatch st;
     eventhash_mismatch := eventhash_mismatch st; bad_events := bad_events st;
     per_model_bad := per_model_bad st |}.
Definition incr_sig_invalid (st : AnomalyStats) : AnomalyStats :=
  {| total_events := total_events st; honest_events := honest_events st;
     attacker_events := attacker_events st; sig_invalid := sig_invalid st + 1;
     commit_mismatch := commit_mismatch st;
     eventhash_mismatch := eventhash_mismatch st; bad_events := bad_events st;
     per_model_bad := per_model_bad st |}.
Definition incr_commit_mismatch (st : AnomalyStats) : AnomalyStats :=
  {| total_events := total_events st; honest_events := honest_events st;
     attacker_events := attacker_events st; sig_invalid := sig_invalid st;
     commit_mismatch := commit_mismatch st + 1;
     eventhash_mismatch := eventhash_mismatch st; bad_events := bad_events st;
     per_model_bad := per_model_bad st |}.
Definition incr_eventhash_mismatch (st : AnomalyStats) : AnomalyStats :=
  {| total_events := total_events st; honest_events := honest_events st;
     attacker_events := attacker_events st; sig_invalid := sig_invalid st;
     commit_mismatch := commit_mismatch st;
     eventhash_mismatch := eventhash_mismatch st + 1; bad_events := bad_events st;
     per_model_bad := per_model_bad st |}.

(** [self.bad_events += 1;
     self.per_model_bad[model_id] = self.per_model_bad.get(model_id, 0) + 1] *)
Definition mark_bad (model_id : string) (st : AnomalyStats) : AnomalyStats :=
  {| total_events := total_events st; honest_events := honest_events st;
     attacker_events := attacker_events st; sig_invalid := sig_invalid st;
     commit_mismatch := commit_mismatch st;
     eventhash_mismatch := eventhash_mismatch st; bad_events := bad_events st + 1;
     per_model_bad :=
       <[model_id := default 0 (per_model_bad st !! model_id) + 1]> (per_model_bad st) |}.

(** ** Attacker variants: the [mutate_event] hooks

    [draw] is the value of [random.random()], [mode] the value of
    [random.choice([...])] at this call. *)
Inductive DriftMode : Type :=
  | payload_commit_only
  | event_hash_only
  | both.

Definition touches_commit (mode : DriftMode) : bool :=
  match mode with payload_commit_only | both => true | event_hash_only => false end.
Definition touches_hash (mode : DriftMode) : bool :=
  match mode with event_hash_only | both => true | payload_commit_only => false end.

Definition CommitDriftAttacker_mutate_event (drift_rate : Q) (draw : Q)
    (mode : DriftMode) (ev : nat) : M EventHeap nat :=
  if Qle_bool drift_rate draw then ret ev
  else
    (if touches_commit mode
     then assign (with_payload_commit (str_repeat "DEAD" 16)) ev
     else ret tt) ;;
    (if touches_hash mode
     then assign (with_event_hash (str_repeat "BEEF" 16)) ev ;;
          assign payload_hash_from_event_hash ev
     else ret tt) ;;
    ret ev.

Definition SlowDripAttacker_mutate_event (drip_rate : Q) (draw : Q) (ev : nat)
    : M EventHeap nat :=
  if Qle_bool drip_rate draw then ret ev
  else
    assign (payload_extended "_shadow") ev ;;
    ret ev.

Section SigCheat.
Context `{CryptoLib}.

(** [SigCheatAttacker.make_event]: the [cheat] argument is ignored, the draw
    decides; the class keeps the default hook, which is applied once by
    [AttackerModel.make_event] and once more here. *)
Definition SigCheatAttacker_make_event (cheat_rate : Q) (draw : Q)
    (store : LineageStore) (payload : string) (cheat : bool) (now : Z)
    : M (BaseModel * EventHeap) nat :=
  let use_cheat := negb (Qle_bool cheat_rate draw) in
  let* ev := AttackerModel_make_event AttackerModel_mutate_event
               store payload use_cheat now in
  on_heap (AttackerModel_mutate_event ev).

End SigCheat.

(** ** Verification *)

Definition World : Type := (Controller.Controller * AnomalyStats)%type.

Definition on_controller {A} (c : M Controller.Controller A) : M World A :=
  fun w => match c (fst w) with (ctl, r) => ((ctl, snd w), r) end.
Definition on_stats (f : AnomalyStats -> AnomalyStats) : M World unit :=
  modify (fun w => (fst w, f (snd w))).
Definition when (b : bool) {S} (c : M S unit) : M S unit :=
  if b then c else ret tt.

Section WithLib.
Context `{CryptoLib}.

Definition commit_check (ev : Event) : bool :=
  let recomputed_commit := commit_payload (PStr (payload ev)) in
  String.eqb recomputed_commit (payload_commit ev).

Definition eventhash_check (ev : Event) : bool :=
  let recomputed_eh :=
    hash_payload (Lineage.model_id ev) (index ev) (prev_hash ev)
                 (PStr (payload ev)) (ts ev) in
  String.eqb recomputed_eh (event_hash ev)
  && String.eqb (payload_hash ev) (event_hash ev).

(** [verify_event_full(ev, vk, controller, stats)]: the controller and the
    statistics are the two objects it is handed and mutates. *)
Definition verify_event_full (ev : Event) (vk : list byte) : M World bool :=
  on_stats incr_total_events ;;
  let commit_ok := commit_check ev in
  let eventhash_ok := eventhash_check ev in
  let* sig_ok := lift_result (verify_signature vk (canonical_bytes ev) (signature ev)) in
  when (negb sig_ok) (on_stats incr_sig_invalid) ;;
  when (negb commit_ok) (on_stats incr_commit_mismatch) ;;
  when (negb eventhash_ok) (on_stats incr_eventhash_mismatch) ;;
  let ok := sig_ok && commit_ok && eventhash_ok in
  on_controller (Controller.update (Lineage.model_id ev) ok) ;;
  when (negb ok) (on_stats (mark_bad (Lineage.model_id ev))) ;;
  ret ok.

End WithLib.
End Stress.

(** * Statements about the ledger *)
Module Ledger.
Import Lineage.

(** The store after a series of calls of [append], successful or not. *)
Definition run_appends (evs : list Event) (self : LineageStore) : LineageStore :=
  foldl (fun s ev => fst (append ev s)) self evs.

(** The hashes of [c] are linked, starting from [prev]. *)
Fixpoint chain_from (prev : string) (c : list Event) : Prop :=
  match c with
  | [] => True
  | e :: c' => prev_hash e = prev /\ chain_from (event_hash e) c'
  end.

(** The hash the next event of the chain has to name. *)
Definition chain_tip (prev : string) (c : list Event) : string :=
  match last c with
  | Some e => event_hash e
  | None => prev
  end.

(** The table holds the indices 0, 1, ... in insertion order. *)
Definition dense (t : list Event) : Prop :=
  index <$> t = seqZ 0 (Z.of_nat (length t)).

Definition idx_sorted (t : list Event) : Prop :=
  StronglySorted (fun a b => index a < index b) t.

(** What a successful [append] leaves: the row inserted, the counter
    advanced, and a commit when the batch is full. *)
Definition commit_policy (self : LineageStore) : LineageStore :=
  if autocommit self && (1000 <=? _pending self)
  then set_pending 0 (conn_commit self)
  else self.
Definition appended (ev : Event) (self : LineageStore) : LineageStore :=
  commit_policy
    (set_pending (_pending self + 1) (set_rows (rows self ++ [ev]) self)).

(** The invariant of the table. *)
Definition ledger_inv (t : list Event) : Prop :=
  dense t /\ idx_sorted t /\ forall m, chain_from GENESIS (sql_where_model m t).

End Ledger.


(** * Statements about the controller *)
Module Reputation.
Import Controller.

(** A call of one of the two public methods that touch [self.state]. *)
Inductive Call : Type :=
  | CallUpdate (model_id : string) (valid : bool)
  | CallGet (model_id : string).

Definition run_call (c : Call) (self : Controller) : Controller :=
  match c with
  | CallUpdate m valid => fst (update m valid self)
  | CallGet m => fst (get m self)
  end.

(** The controller after a series of calls. *)
Definition run_calls (cs : list Call) (self : Controller) : Controller :=
  foldl (fun s c => run_call c s) self cs.

(** The table of the specification: the effect of one verdict on a
    (weight, theta) pair. *)
Definition verdict_step (valid : bool) (wt : Z * Z) : Z * Z :=
  if valid then (Z.min 1000 (fst wt + 30), Z.max 50 (snd wt - 8))
  else (Z.max 0 (fst wt - 100), Z.min 500 (snd wt + 30)).

(** The pair a model id stands at: the recorded one, or the default of an
    agent not seen yet. *)
Definition standing (self : Controller) (model_id : string) : Z * Z :=
  default (1000, 500) (peek self model_id).

Definition in_range (e : Entry) : Prop :=
  0 <= weight e <= 1000 /\ 50 <= theta e <= 500.

(** Every recorded dict is within the ranges. *)
Definition bounded (self : Controller) : Prop :=
  forall m l, state self !! m = Some l -> in_range (heap self l).

(** No two keys share a dict object, and every bound address is allocated. *)
Definition unaliased (self : Controller) : Prop :=
  (forall m l, state self !! m = Some l -> (l < next self)%nat)
  /\ (forall m1 m2 l, state self !! m1 = Some l -> state self !! m2 = Some l -> m1 = m2).

(** The address [_ensure] leaves the key bound to. *)
Definition addr_of (self : Controller) (model_id : string) : nat :=
  default (next self) (state self !! model_id).

(** The two assignments of one branch of [update], on the dict at [l]. *)
Definition settle (valid : bool) (l : nat) (self : Controller) : Controller :=
  let w := weight (heap self l) in
  let self1 :=
    store_weight l (if valid then Z.min 1000 (w + 30) else Z.max 0 (w - 100)) self in
  let t := theta (heap self1 l) in
  store_theta l (if valid then Z.max 50 (t - 8) else Z.min 500 (t + 30)) self1.

End Reputation.


(** * Statements about verification and the harness hooks *)
Module Audit.
Import CryptoUtils Lineage Models Stress.

(** What one run of [verify_event_full] does to the statistics, given the
    three sub-verdicts. *)
Definition tally (sig_ok commit_ok eventhash_ok : bool) (model_id : string)
    (st : AnomalyStats) : AnomalyStats :=
  let st1 := incr_total_events st in
  let st2 := if sig_ok then st1 else incr_sig_invalid st1 in
  let st3 := if commit_ok then st2 else incr_commit_mismatch st2 in
  let st4 := if eventhash_ok then st3 else incr_eventhash_mismatch st3 in
  if sig_ok && commit_ok && eventhash_ok then st4 else mark_bad model_id st4.

(** The fields of an event after the commit-drift hook has fired. *)
Definition drifted (mode : DriftMode) (e : Event) : Event :=
  {| Lineage.model_id := Lineage.model_id e; index := index e; ts := ts e;
     payload := payload e;
     payload_hash :=
       if touches_hash mode then str_repeat "BEEF" 16 else payload_hash e;
     payload_commit :=
       if touches_commit mode then str_repeat "DEAD" 16 else payload_commit e;
     prev_hash := prev_hash e;
     event_hash :=
       if touches_hash mode then str_repeat "BEEF" 16 else event_hash e;
     signature := signature e |}.

(** A hook under which events are immutable: whatever object exists before
    the call is the same afterwards. *)
Definition leaves_events_intact (hook : nat -> M EventHeap nat) : Prop :=
  forall (h : EventHeap) (ev a : nat) (e : Event),
    h !! a = Some e -> fst (hook ev h) !! a = Some e.

(** A sample event: a 64-byte signature over the genesis event of model A. *)
Definition sample_event : Event :=
  {| Lineage.model_id := "A"; index := 0; ts := 1000; payload := "hello";
     payload_hash := GENESIS; payload_commit := GENESIS; prev_hash := GENESIS;
     event_hash := GENESIS; signature := replicate 64 "000"%byte |}.

End Audit.


(** * Statements about event emission *)
Module Emission.
Import CryptoUtils Lineage Models Ledger.

(** One call [make_event(store, payload, cheat)], with the store as it is
    at the call and the clock reading [call_now]. *)
Record EmitCall : Type := mkEmitCall {
  call_store : LineageStore;
  call_payload : string;
  call_cheat : bool;
  call_now : Z
}.

(** What happens around one agent and one store. *)
Inductive Step : Type :=
  (* ev = agent.make_event(store, payload, cheat); store.append(ev) *)
  | Emit (payload : string) (cheat : bool) (now : Z)
  (* the store is committed and the process ends; a new process builds the
     agent again (new keys, same model id) and reopens the store *)
  | Reboot (keys : list byte * list byte)
  (* the process ends without a commit, so the rows inserted since the last
     commit are lost; then as above *)
  | Crash (keys : list byte * list byte)
  (* an append made for another model id *)
  | Foreign (e : Event).

Section WithLib.
Context `{CryptoLib}.

(** The events produced by a series of calls on one agent object. *)
Fixpoint emit_many (calls : list EmitCall) (a : BaseModel) : list Event :=
  match calls with
  | [] => []
  | c :: calls' =>
      match make_event (call_store c) (call_payload c) (call_cheat c)
                       (call_now c) a with
      | (a', Ok e) => e :: emit_many calls' a'
      | (a', Raise _) => emit_many calls' a'
      end
  end.

Definition run_step (st : BaseModel * LineageStore) (step : Step)
    : BaseModel * LineageStore :=
  let a := fst st in
  let s := snd st in
  match step with
  | Emit payload cheat now =>
      match make_event s payload cheat now a with
      | (a', Ok e) => (a', fst (append e s))
      | (a', Raise _) => (a', s)
      end
  | Reboot keys =>
      (BaseModel_init (model_id a) keys,
       LineageStore_init (rows (conn_commit s)) (autocommit s))
  | Crash keys =>
      (BaseModel_init (model_id a) keys,
       LineageStore_init (durable s) (autocommit s))
  | Foreign e =>
      if decide (Lineage.model_id e = model_id a) then (a, s)
      else (a, fst (append e s))
  end.

Definition run_steps (steps : list Step) (st : BaseModel * LineageStore)
    : BaseModel * LineageStore :=
  foldl run_step st steps.

End WithLib.

(** The timestamp [_next_ts] chooses. *)
Definition chosen_ts (a : BaseModel) (s : LineageStore) (now : Z) : Z :=
  max3 now (_last_ts a + 1)
       (match last_ts s (model_id a) with Some t => t + 1 | None => 0 end).

(** A table in shape, on which the timestamps of [m] increase. *)
Definition table_ok (m : string) (t : list Event) : Prop :=
  ledger_inv t /\ StronglySorted Z.lt (ts <$> sql_where_model m t).

(** The invariant of a run: the agent keeps its id, and both the table the
    connection sees and the committed one are in shape. *)
Definition run_inv (m : string) (st : BaseModel * LineageStore) : Prop :=
  model_id (fst st) = m
  /\ table_ok m (rows (snd st))
  /\ table_ok m (durable (snd st)).

End Emission.


(** * Sample runs *)
Module Scenario.
Import CryptoUtils Lineage Models Stress Emission.

Definition keys_A : list byte * list byte := (["a"%byte], ["a"%byte]).
Definition keys_B : list byte * list byte := (["b"%byte], ["b"%byte]).

Definition fresh_world : World := (Controller.Controller_init, AnomalyStats_init).

(** The event of a [make_event] call that returned. *)
Definition made (r : BaseModel * Result Event) : option Event :=
  match snd r with Ok e => Some e | Raise _ => None end.

(** Agents A and B write "x", "y", "z" in turn to an empty store. *)
Definition interleaved : LineageStore :=
  let s0 := LineageStore_init [] true in
  let a := BaseModel_init "A" keys_A in
  let b := BaseModel_init "B" keys_B in
  let '(a, s1) := @run_step sample_lib (a, s0) (Emit "x" false 1000) in
  let '(b, s2) := @run_step sample_lib (b, s1) (Emit "y" false 1000) in
  let '(a, s3) := @run_step sample_lib (a, s2) (Emit "z" false 1000) in
  s3.

End Scenario.


(** * Statements about the commit batches *)
Module Batch.
Import Lineage Ledger.

(** The bookkeeping of a store opened on [disk] with the flag [ac]: the
    table is the committed one followed by [_pending] rows; with
    [autocommit] a batch never reaches 1000 rows, without it nothing is
    ever committed. *)
Definition batch_inv (disk : list Event) (ac : bool) (s : LineageStore) : Prop :=
  autocommit s = ac
  /\ (exists tail, rows s = durable s ++ tail
                  /\ Z.of_nat (length tail) = _pending s)
  /\ (exists progress, durable s = disk ++ progress)
  /\ (ac = true -> _pending s < 1000)
  /\ (ac = false -> durable s = disk).

(** The order of [ORDER BY idx]. *)
Definition idx_le (a b : Event) : Prop := index a <= index b.

(** The events of a series of [append] calls whose call returned, the
    others having raised. *)
Fixpoint accepted (evs : list Event) (self : LineageStore) : list Event :=
  match evs with
  | [] => []
  | ev :: evs' =>
      if is_ok (snd (append ev self))
      then ev :: accepted evs' (fst (append ev self))
      else accepted evs' (fst (append ev self))
  end.

End Batch.

(** * run_demo.py *)
Module Demo.
Import CryptoUtils Lineage.

(** What [verify_event] prints when [verbose]: the values it formats into
    one console line (the text layout and the division by 1000 and 100 for
    display are not modelled). *)
Record Line : Type := mkLine {
  line_phase : string;
  line_idx : Z;
  line_model_id : string;
  line_good : bool;
  line_w : Z;
  line_t : Z
}.

(** The controller handed to [verify_event] and the console. *)
Definition Desk : Type := (Controller.Controller * list Line)%type.

Definition on_controller {A} (c : M Controller.Controller A) : M Desk A :=
  fun d => match c (fst d) with (ctl, r) => ((ctl, snd d), r) end.
Definition print (l : Line) : M Desk unit :=
  modify (fun d => (fst d, snd d ++ [l])).

Section WithLib.
Context `{CryptoLib}.

Definition verify_event (ev : Event) (vk : list byte) (phase : string)
    (verbose : bool) : M Desk bool :=
  let* ok := lift_result (verify_signature vk (canonical_bytes ev) (signature ev)) in
  on_controller (Controller.update (model_id ev) ok) ;;
  let* wt := on_controller (Controller.get (model_id ev)) in
  (if verbose
   then print {| line_phase := phase; line_idx := index ev;
                 line_model_id := model_id ev; line_good := ok;
                 line_w := fst wt; line_t := snd wt |}
   else ret tt) ;;
  ret ok.

End WithLib.

(** An event with its payload and payload hash replaced. *)
Definition with_payload (p ph : string) (e : Event) : Event :=
  {| model_id := model_id e; index := index e; ts := ts e; payload := p;
     payload_hash := ph; payload_commit := payload_commit e;
     prev_hash := prev_hash e; event_hash := event_hash e;
     signature := signature e |}.

(** The raw pieces of an event, put through [rebuild_event] again. *)
Definition rebuilt `{CryptoLib} (e : Event) : Event :=
  rebuild_event (model_id e) (index e) (payload e) (prev_hash e) (ts e)
                (signature e).

End Demo.

(** * Statements about made events *)
Module Made.
Import CryptoUtils Lineage Models Emission.

Section WithLib.
Context `{CryptoLib}.

(** The bytes [make_event] has signed for the event it returns:
    the canonical bytes of the event, reversed under [cheat]. *)
Definition signed_bytes (cheat : bool) (e : Event) : list byte :=
  if cheat then reverse (canonical_bytes e) else canonical_bytes e.

(** The event [make_event] is to return, but for its signature. *)
Definition unsigned_event (a : BaseModel) (s : LineageStore) (payload : string)
    (now : Z) : Event :=
  rebuild_event (model_id a) (next_index s) payload
                (last_hash s (model_id a)) (chosen_ts a s now) [].

End WithLib.

(** [e] with another signature. *)
Definition with_signature (sig : list byte) (e : Event) : Event :=
  {| Lineage.model_id := Lineage.model_id e; index := index e; ts := ts e;
     payload := payload e; payload_hash := payload_hash e;
     payload_commit := payload_commit e; prev_hash := prev_hash e;
     event_hash := event_hash e; signature := sig |}.

End Made.

(** * Statements about replaying verdicts *)
Module Replay.
Import Controller Reputation.

(** The verdicts a series of calls holds for one model id, in order. *)
Definition verdicts_of (m : string) (cs : list Call) : list bool :=
  omap (fun c => match c with
                 | CallUpdate m' valid => if decide (m' = m) then Some valid else None
                 | CallGet _ => None
                 end) cs.

(** The verdicts applied one after the other to a pair. *)
Definition replay_from (wt : Z * Z) (vs : list bool) : Z * Z :=
  foldl (fun wt v => verdict_step v wt) wt vs.

End Replay.

(** * Statements about runs of the verifier and rounds of the stress loop *)
Module Bench.
Import CryptoUtils Lineage Models Stress Ledger.

(** The sum of the per-model tallies. *)
Definition tally_total (t : gmap string Z) : Z :=
  map_fold (fun _ v acc => v + acc) 0 t.

(** What the counters of [AnomalyStats] satisfy at any time. *)
Definition stats_inv (st : AnomalyStats) : Prop :=
  0 <= sig_invalid st <= bad_events st
  /\ 0 <= commit_mismatch st <= bad_events st
  /\ 0 <= eventhash_mismatch st <= bad_events st
  /\ bad_events st <= sig_invalid st + commit_mismatch st + eventhash_mismatch st
  /\ bad_events st <= total_events st
  /\ tally_total (per_model_bad st) = bad_events st
  /\ (forall m v, per_model_bad st !! m = Some v -> 1 <= v).

(** One round of the main loop for an attacker: the agent, the event
    objects made so far, the store, and the controller with the statistics. *)
Record Arena : Type := mkArena {
  agent : BaseModel;
  events : EventHeap;
  store : LineageStore;
  world : World
}.

Definition on_maker {A} (c : M (BaseModel * EventHeap) A) : M Arena A :=
  fun b => match c (agent b, events b) with
           | (ah, r) => ({| agent := fst ah; events := snd ah;
                            store := store b; world := world b |}, r)
           end.
Definition on_store {A} (c : M LineageStore A) : M Arena A :=
  fun b => match c (store b) with
           | (s, r) => ({| agent := agent b; events := events b;
                           store := s; world := world b |}, r)
           end.
Definition on_world {A} (c : M World A) : M Arena A :=
  fun b => match c (world b) with
           | (w, r) => ({| agent := agent b; events := events b;
                           store := store b; world := w |}, r)
           end.

(** The fields of the object at address [ev], as read by whoever is handed
    the object.  [make_event] hands out addresses of objects it has built,
    so the second branch stands for nothing the program can do. *)
Definition fields_of (ev : nat) : M Arena Event :=
  fun b => match events b !! ev with
           | Some e => (b, Ok e)
           | None => (b, Raise (KeyError "event object"))
           end.

(** What the rounds of both attackers have in common, for the object [obj]
    the round leaves. *)
Definition round_outcome (b : Arena) (e obj : Event)
    (r : Arena * Result bool) : Prop :=
  events (fst r) = events b ++ [obj]
  /\ (forall got expected, snd r <> Raise (IndexMismatch got expected))
  /\ (forall m got expected, snd r <> Raise (PrevHashMismatch m got expected))
  /\ (ledger_inv (rows (store b)) -> ledger_inv (rows (store (fst r))))
  /\ (sql_bindable e = true ->
      store (fst r) = appended obj (store b)
      /\ rows (store (fst r)) = rows (store b) ++ [obj]
      /\ last_hash (store (fst r)) (model_id (agent b)) = event_hash obj)
  /\ (sql_bindable e = false ->
      snd r = Raise OverflowError
      /\ store (fst r) = store b /\ world (fst r) = world b).

Section WithLib.
Context `{CryptoLib}.

(** The verifier run over a series of events and keys. *)
Definition run_verifications (calls : list (Event * list byte)) (w : World) : World :=
  foldl (fun w c => fst (verify_event_full (fst c) (snd c) w)) w calls.

(** The call of [Controller.update] that one verification makes, if it
    gets that far. *)
Definition update_of (c : Event * list byte) : option Reputation.Call :=
  match verify_signature (snd c) (canonical_bytes (fst c)) (signature (fst c)) with
  | Ok sig_ok =>
      Some (Reputation.CallUpdate (Lineage.model_id (fst c))
              (sig_ok && commit_check (fst c) && eventhash_check (fst c)))
  | Raise _ => None
  end.

(** [for ev in events: verify_event_full(ev, key_of[ev.model_id], controller,
    stats)]: an exception of a call ends the loop, with the controller and
    the statistics as that call has left them. *)
Fixpoint verify_loop (key_of : string -> list byte) (l : list Event) : M World unit :=
  match l with
  | [] => ret tt
  | ev :: l' =>
      verify_event_full ev (key_of (Lineage.model_id ev)) ;;
      verify_loop key_of l'
  end.

(** The loop on a fresh controller and fresh statistics. *)
Definition verify_all (key_of : string -> list byte) (l : list Event)
    : World * Result unit :=
  verify_loop key_of l (Controller.Controller_init, AnomalyStats_init).

(** [ev = m.make_event(store, payload); store.append(ev);
     verify_event_full(ev, m.verify_key, controller, stats)]
    for an attacker [m] whose class has the hook [mutate_event]; [now] is
    the clock at the call. *)
Definition attacker_round (mutate_event : nat -> M EventHeap nat)
    (payload : string) (now : Z) : M Arena bool :=
  let* s := gets store in
  let* ev := on_maker (AttackerModel_make_event mutate_event s payload false now) in
  let* fields := fields_of ev in
  on_store (append fields) ;;
  let* fields := fields_of ev in
  let* key := gets (fun b => vk (agent b)) in
  on_world (verify_event_full fields key).

End WithLib.
End Bench.

(** * controller.py: summary *)
Module Summary.
Import Controller.

(** The order of [sorted(self.state.items())]: the keys are distinct, so the
    items are ordered by key alone; Python orders strings by code point,
    which is the byte order of their UTF-8 encodings. *)
Definition by_id (a b : string * nat) : Prop := String.le (fst a) (fst b).

#[local] Instance by_id_dec : RelDecision by_id.
Proof. intros a b. unfold by_id. apply _. Defined.

(** The lines [summary] prints under its header, as the values it formats:
    model id, weight and theta (the division by 1000.0 and 100.0 and the
    text layout are not modelled).  [summary] only reads the controller. *)
Definition summary (self : Controller) : list (string * Z * Z) :=
  (fun kv => (fst kv, weight (heap self (snd kv)), theta (heap self (snd kv))))
    <$> merge_sort by_id (map_to_list (state self)).

End Summary.

(** * Part II: properties *)

(** * Facts about lineage.py *)
Section LineageFacts.
Import Lineage Ledger.

Lemma sql_max_idx_nil_iff t : sql_max_idx t = None <-> t = [].
Proof.
  destruct t as [|r t]; simpl; [done|].
  split; [|done]. by destruct (sql_max_idx t).
Qed.

Lemma sql_max_idx_bound t m r :
  sql_max_idx t = Some m -> r ∈ t -> index r <= m.
Proof.
  revert m. induction t as [|r' t IH]; intros m Hm Hr; [by inversion Hr|].
  simpl in Hm. apply elem_of_cons in Hr.
  destruct (sql_max_idx t) as [m'|] eqn:E.
  - inversion Hm; subst. destruct Hr as [->|Hr]; [lia|].
    specialize (IH m' eq_refl Hr). lia.
  - inversion Hm; subst. destruct Hr as [->|Hr]; [lia|].
    apply sql_max_idx_nil_iff in E. subst. by inversion Hr.
Qed.

Lemma sql_max_idx_attained t m :
  sql_max_idx t = Some m -> exists r, r ∈ t /\ index r = m.
Proof.
  revert m. induction t as [|r' t IH]; intros m Hm; [done|].
  simpl in Hm. destruct (sql_max_idx t) as [m'|] eqn:E.
  - inversion Hm; subst. destruct (Z.max_spec (index r') m') as [[_ ->]|[_ ->]].
    + destruct (IH m' eq_refl) as (r & ? & ?). exists r. split; [by right|done].
    + exists r'. split; [by left|done].
  - inversion Hm; subst. exists r'. split; [by left|done].
Qed.

Lemma next_index_above self r : r ∈ rows self -> index r < next_index self.
Proof.
  intros Hr. unfold next_index. destruct (sql_max_idx (rows self)) as [m|] eqn:E.
  - pose proof (sql_max_idx_bound _ _ _ E Hr). lia.
  - apply sql_max_idx_nil_iff in E. rewrite E in Hr. by inversion Hr.
Qed.

Lemma sql_insert_fresh r t :
  (forall r', r' ∈ t -> index r' < index r) ->
  sql_insert r t = if sql_bindable r then Ok (t ++ [r]) else Raise OverflowError.
Proof.
  intros Hfresh. unfold sql_insert.
  destruct (sql_bindable r); [|done]. cbn [negb].
  destruct (existsb (fun r' => index r' =? index r) t) eqn:E; [|done].
  apply existsb_exists in E as (r' & Hin & Heq).
  apply list_elem_of_In in Hin. apply Hfresh in Hin. lia.
Qed.

(** [append] in closed form. *)
Lemma append_eq ev self :
  append ev self =
    if negb (index ev =? next_index self) then
      (self, Raise (IndexMismatch (index ev) (next_index self)))
    else if negb (String.eqb (prev_hash ev) (last_hash self (model_id ev))) then
      (self, Raise (PrevHashMismatch (model_id ev) (prev_hash ev)
                      (last_hash self (model_id ev))))
    else if negb (sql_bindable ev) then (self, Raise OverflowError)
    else (appended ev self, Ok tt).
Proof.
  unfold append, bind, gets, raise, lift_result, modify, ret. simpl.
  destruct (index ev =? next_index self) eqn:Ei; simpl; [|done].
  destruct (String.eqb (prev_hash ev) (last_hash self (model_id ev))); simpl; [|done].
  rewrite sql_insert_fresh.
  - destruct (sql_bindable ev); simpl; [|done].
    unfold appended, commit_policy. simpl.
    by destruct (autocommit self && (1000 <=? _pending self + 1)).
  - intros r' Hr'. apply next_index_above in Hr'. lia.
Qed.


(** The four ways a call of [append] ends. *)
Lemma append_cases ev self :
  (index ev <> next_index self
   /\ append ev self
      = (self, Raise (IndexMismatch (index ev) (next_index self))))
  \/ (index ev = next_index self
      /\ prev_hash ev <> last_hash self (model_id ev)
      /\ append ev self
         = (self, Raise (PrevHashMismatch (model_id ev) (prev_hash ev)
                           (last_hash self (model_id ev)))))
  \/ (index ev = next_index self
      /\ prev_hash ev = last_hash self (model_id ev)
      /\ sql_bindable ev = false
      /\ append ev self = (self, Raise OverflowError))
  \/ (index ev = next_index self
      /\ prev_hash ev = last_hash self (model_id ev)
      /\ sql_bindable ev = true
      /\ append ev self = (appended ev self, Ok tt)).
Proof.
  rewrite append_eq.
  destruct (Z.eqb_spec (index ev) (next_index self)) as [Hi|Hi]; simpl;
    [|by left].
  destruct (String.eqb_spec (prev_hash ev) (last_hash self (model_id ev)))
    as [Hp|Hp]; simpl; [|by right; left].
  destruct (sql_bindable ev); simpl; [by right; right; right|by right; right; left].
Qed.

(** ** Sorted tables *)

Lemma sql_order_by_idx_sorted t : idx_sorted t -> sql_order_by_idx t = t.
Proof.
  unfold idx_sorted. induction 1 as [|r t Hs IH Hall]; [done|].
  simpl. fold (sql_order_by_idx t). rewrite IH.
  destruct t as [|r' t']; [done|]. simpl.
  apply Forall_cons in Hall as [Hlt _].
  destruct (index r <=? index r') eqn:E; [done|lia].
Qed.

Lemma idx_sorted_filter (P : Event -> Prop) `{!forall x, Decision (P x)} t :
  idx_sorted t -> idx_sorted (filter P t).
Proof.
  unfold idx_sorted. induction 1 as [|r t Hs IH Hall]; [constructor|].
  rewrite filter_cons. destruct (decide (P r)); [|done].
  constructor; [done|].
  apply Forall_forall. intros x Hx. apply list_elem_of_filter in Hx as [_ Hx].
  by eapply Forall_forall in Hall.
Qed.

Lemma idx_sorted_snoc t r :
  idx_sorted t -> (forall r', r' ∈ t -> index r' < index r) -> idx_sorted (t ++ [r]).
Proof.
  intros Hs Hr. apply StronglySorted_app_2; [|done|].
  - intros x1 x2 H1 H2. apply list_elem_of_singleton in H2 as ->. by apply Hr.
  - repeat constructor.
Qed.

Lemma limit_1_sorted t :
  idx_sorted t -> sql_order_by_idx_desc_limit_1 t = last t.
Proof.
  intros Hs. unfold sql_order_by_idx_desc_limit_1.
  by rewrite sql_order_by_idx_sorted, head_reverse.
Qed.

Lemma last_hash_sorted self m :
  idx_sorted (rows self) ->
  last_hash self m = chain_tip GENESIS (sql_where_model m (rows self)).
Proof.
  intros Hs. unfold last_hash, chain_tip, sql_where_model.
  by rewrite limit_1_sorted by by apply idx_sorted_filter.
Qed.

Lemma last_ts_sorted self m :
  idx_sorted (rows self) ->
  last_ts self m = ts <$> last (sql_where_model m (rows self)).
Proof.
  intros Hs. unfold last_ts, sql_where_model.
  rewrite limit_1_sorted by by apply idx_sorted_filter.
  by destruct (last _).
Qed.

Lemma get_chain_sorted self m :
  idx_sorted (rows self) -> get_chain self m = sql_where_model m (rows self).
Proof.
  intros Hs. unfold get_chain, sql_where_model.
  by apply sql_order_by_idx_sorted, idx_sorted_filter.
Qed.

(** ** Dense tables *)

Lemma dense_nil : dense [].
Proof. done. Qed.

Lemma dense_snoc t r :
  dense t -> index r = Z.of_nat (length t) -> dense (t ++ [r]).
Proof.
  unfold dense. intros Hd Hr.
  rewrite fmap_app, length_app, Hd. simpl.
  replace (length t + 1)%nat with (S (length t)) by lia.
  rewrite seqZ_S. simpl. by rewrite Hr.
Qed.

Lemma dense_elem t i :
  dense t -> i ∈ index <$> t <-> 0 <= i < Z.of_nat (length t).
Proof. unfold dense. intros ->. rewrite elem_of_seqZ. lia. Qed.

Lemma dense_next_index self :
  dense (rows self) -> next_index self = Z.of_nat (length (rows self)).
Proof.
  intros Hd. unfold next_index.
  destruct (sql_max_idx (rows self)) as [m|] eqn:E.
  - destruct (sql_max_idx_attained _ _ E) as (r & Hr & Hm).
    assert (Hin : index r ∈ index <$> rows self) by by apply list_elem_of_fmap_2.
    apply dense_elem in Hin; [|done].
    destruct (rows self) as [|r0 t] eqn:Et using rev_ind; [by inversion Hr|].
    clear IHt.
    assert (Hlast : Z.of_nat (length t) ∈ index <$> (t ++ [r0])).
    { apply dense_elem; [done|]. rewrite length_app. simpl. lia. }
    apply list_elem_of_fmap in Hlast as (r1 & Hr1 & Hin1).
    pose proof (sql_max_idx_bound _ _ _ E Hin1).
    rewrite length_app in *. simpl in *. lia.
  - apply sql_max_idx_nil_iff in E. by rewrite E.
Qed.


(** ** Hash chains *)

Lemma chain_tip_cons prev x c : chain_tip prev (x :: c) = chain_tip (event_hash x) c.
Proof.
  unfold chain_tip. destruct c as [|y c]; [done|].
  rewrite last_cons_cons. destruct (last_is_Some (y :: c)) as [_ Hl].
  by destruct Hl as [z ->].
Qed.

Lemma chain_from_snoc prev c e :
  chain_from prev (c ++ [e]) <-> chain_from prev c /\ prev_hash e = chain_tip prev c.
Proof.
  revert prev. induction c as [|x c IH]; intros prev; simpl.
  - unfold chain_tip. simpl. tauto.
  - rewrite IH, chain_tip_cons. tauto.
Qed.

Lemma chain_from_head prev c e : chain_from prev c -> head c = Some e -> prev_hash e = prev.
Proof. destruct c as [|x c]; [done|]. simpl. intros [? _] [= ->]. done. Qed.

Lemma chain_from_link prev c k e e' :
  chain_from prev c -> c !! k = Some e -> c !! S k = Some e' ->
  prev_hash e' = event_hash e.
Proof.
  revert prev k. induction c as [|x c IH]; intros prev k Hc He He'; [done|].
  destruct Hc as [_ Hc]. destruct k as [|k]; simpl in *.
  - inversion He; subst. destruct c as [|y c]; [done|].
    simpl in He'. inversion He'; subst. by destruct Hc.
  - by eapply IH.
Qed.

(** ** The invariant is kept by [append] *)

Lemma appended_rows ev self : rows (appended ev self) = rows self ++ [ev].
Proof.
  unfold appended, commit_policy.
  by destruct (autocommit _ && _).
Qed.

Lemma ledger_inv_nil : ledger_inv [].
Proof. split; [apply dense_nil|]. split; [constructor|]. intros m. exact I. Qed.

Lemma ledger_inv_snoc self ev :
  ledger_inv (rows self) ->
  index ev = next_index self ->
  prev_hash ev = last_hash self (model_id ev) ->
  ledger_inv (rows self ++ [ev]).
Proof.
  intros (Hd & Hs & Hc) Hi Hp. split; [|split].
  - apply dense_snoc; [done|]. by rewrite Hi, dense_next_index.
  - apply idx_sorted_snoc; [done|]. intros r' Hr'. rewrite Hi.
    by apply next_index_above.
  - intros m. unfold sql_where_model. rewrite filter_app.
    rewrite filter_cons, filter_nil.
    destruct (decide (model_id ev = m)) as [Hm|Hm].
    + apply chain_from_snoc. split; [apply Hc|].
      rewrite Hp, last_hash_sorted by done. by rewrite Hm.
    + rewrite app_nil_r. apply Hc.
Qed.

Lemma append_keeps_inv ev self :
  ledger_inv (rows self) -> ledger_inv (rows (fst (append ev self))).
Proof.
  intros Hinv.
  destruct (append_cases ev self)
    as [(_ & ->)|[(_ & _ & ->)|[(_ & _ & _ & ->)|(Hi & Hp & _ & ->)]]];
    [done..|].
  cbn [fst]. rewrite appended_rows. by apply ledger_inv_snoc.
Qed.

Lemma run_appends_keeps_inv evs self :
  ledger_inv (rows self) -> ledger_inv (rows (run_appends evs self)).
Proof.
  revert self. induction evs as [|ev evs IH]; intros self Hinv; [done|].
  simpl. apply IH. by apply append_keeps_inv.
Qed.

(** C1. After any series of appends to an empty store the stored indices are
    exactly 0 .. n-1, where n is the number of stored events, and the chain
    of every model id (its events in index order) starts with a [prev_hash]
    equal to [GENESIS] and links each event to the [event_hash] of the one
    before it. *)
Theorem C1_dual_continuity (ac : bool) (evs : list Event) :
  let s := run_appends evs (LineageStore_init [] ac) in
  (forall i, i ∈ index <$> all_events s
             <-> 0 <= i < Z.of_nat (length (all_events s)))
  /\ NoDup (index <$> all_events s)
  /\ forall m,
       get_chain s m = filter (fun e => model_id e = m) (all_events s)
       /\ idx_sorted (get_chain s m)
       /\ (forall e, head (get_chain s m) = Some e -> prev_hash e = GENESIS)
       /\ (forall k e e', get_chain s m !! k = Some e ->
                          get_chain s m !! S k = Some e' ->
                          prev_hash e' = event_hash e).
Proof.
  intros s.
  assert (Hinv : ledger_inv (rows s)).
  { apply run_appends_keeps_inv. apply ledger_inv_nil. }
  destruct Hinv as (Hd & Hs & Hc).
  assert (Hall : all_events s = rows s) by by apply sql_order_by_idx_sorted.
  rewrite Hall. split; [|split].
  - intros i. by apply dense_elem.
  - rewrite Hd. apply NoDup_seqZ.
  - intros m. rewrite get_chain_sorted by done. split; [done|]. split; [|split].
    + by apply idx_sorted_filter.
    + intros e He. exact (chain_from_head _ _ _ (Hc m) He).
    + intros k e e' He He'. exact (chain_from_link _ _ _ _ _ (Hc m) He He').
Qed.

(** C2 (amended). [append] raises the index error exactly when the index
    is not the next one, the prev-hash error exactly when the index is right
    and the previous hash is not the last hash of the model, and the
    overflow error of the INSERT exactly when both are right and the index
    or the timestamp is outside the signed 64-bit range; beyond model id,
    index and previous hash its outcome depends on nothing but whether the
    timestamp is in that range; a failure leaves the store as it was; and in
    the remaining case the event is inserted. *)
Theorem C2_append_errors (self : LineageStore) (e : Event) :
  ((exists got expected, snd (append e self) = Raise (IndexMismatch got expected))
     <-> index e <> next_index self)
  /\ ((exists m got expected,
         snd (append e self) = Raise (PrevHashMismatch m got expected))
      <-> index e = next_index self
          /\ prev_hash e <> last_hash self (model_id e))
  /\ (snd (append e self) = Raise OverflowError
      <-> index e = next_index self
          /\ prev_hash e = last_hash self (model_id e)
          /\ sql_bindable e = false)
  /\ (forall e', model_id e' = model_id e -> index e' = index e ->
                 prev_hash e' = prev_hash e ->
                 sqlite_int (ts e') = sqlite_int (ts e) ->
                 snd (append e' self) = snd (append e self))
  /\ (is_ok (snd (append e self)) = false -> fst (append e self) = self)
  /\ (index e = next_index self ->
      prev_hash e = last_hash self (model_id e) ->
      sql_bindable e = true ->
      snd (append e self) = Ok tt
      /\ fst (append e self) = appended e self
      /\ rows (fst (append e self)) = rows self ++ [e]
      /\ e ∈ all_events (fst (append e self))).
Proof.
  assert (Hsame : forall e', model_id e' = model_id e -> index e' = index e ->
            prev_hash e' = prev_hash e ->
            sqlite_int (ts e') = sqlite_int (ts e) ->
            snd (append e' self) = snd (append e self)).
  { intros e' Hm Hi Hp Ht. rewrite !append_eq. unfold sql_bindable.
    rewrite Hm, Hi, Hp, Ht.
    destruct (negb (index e =? next_index self)); [done|].
    destruct (negb (String.eqb (prev_hash e) (last_hash self (model_id e))));
      [done|].
    by destruct (negb (sqlite_int (index e) && sqlite_int (ts e))). }
  assert (Hperm : forall t, sql_order_by_idx t ≡ₚ t).
  { assert (Hins : forall r t, sql_insert_by_idx r t ≡ₚ r :: t).
    { intros r t. induction t as [|r' t IH]; [done|]. simpl.
      destruct (index r <=? index r'); [done|].
      rewrite IH. apply Permutation_swap. }
    induction t as [|r t IH]; [done|]. simpl.
    fold (sql_order_by_idx t). by rewrite Hins, IH. }
  destruct (append_cases e self)
    as [(Hi & Heq)|[(Hi & Hp & Heq)|[(Hi & Hp & Hb & Heq)|(Hi & Hp & Hb & Heq)]]];
    refine (conj _ (conj _ (conj _ (conj Hsame (conj _ _)))));
    rewrite Heq; cbn [fst snd is_ok].
  - split; [done|eauto].
  - split; [by intros (? & ? & ? & ?)|by intros [? _]].
  - split; [done|by intros (? & _)].
  - done.
  - intros ?. done.
  - split; [by intros (? & ? & ?)|done].
  - split; [done|eauto].
  - split; [done|by intros (_ & ? & _)].
  - done.
  - intros _ ?. done.
  - split; [by intros (? & ? & ?)|done].
  - split; [by intros (? & ? & ? & ?)|by intros [_ ?]].
  - done.
  - done.
  - intros _ _ Hb'. congruence.
  - split; [by intros (? & ? & ?)|done].
  - split; [by intros (? & ? & ? & ?)|by intros [_ ?]].
  - split; [done|intros (_ & _ & Hb'); congruence].
  - done.
  - intros _ _ _.
    split; [done|]. split; [done|]. split; [apply appended_rows|].
    unfold all_events. rewrite appended_rows, Hperm.
    apply elem_of_app. right. by apply list_elem_of_singleton.
Qed.

(** C2 as stated fails: on an empty store an event with the right index and
    previous hash and the timestamp 2^63 is refused with the overflow error
    of the INSERT and nothing is stored, while the same event with the
    timestamp 0 is inserted. *)
Lemma C2_overflow_is_refused :
  index (mkEvent "A" 0 (2 ^ 63) "hello" GENESIS GENESIS GENESIS GENESIS [])
    = next_index (LineageStore_init [] true)
  /\ prev_hash (mkEvent "A" 0 (2 ^ 63) "hello" GENESIS GENESIS GENESIS GENESIS [])
     = last_hash (LineageStore_init [] true) "A"
  /\ append (mkEvent "A" 0 (2 ^ 63) "hello" GENESIS GENESIS GENESIS GENESIS [])
            (LineageStore_init [] true)
     = (LineageStore_init [] true, Raise OverflowError)
  /\ snd (append (mkEvent "A" 0 0 "hello" GENESIS GENESIS GENESIS GENESIS [])
                 (LineageStore_init [] true))
     = Ok tt.
Proof. vm_compute. repeat split. Qed.

End LineageFacts.

(** * Facts about controller.py *)
Section ControllerFacts.
Import Controller Reputation.

Lemma ensure_known m self l :
  state self !! m = Some l -> _ensure m self = (self, Ok tt).
Proof.
  intros Hl. unfold _ensure, bind, gets, modify, ret.
  rewrite bool_decide_eq_true_2 by eauto. done.
Qed.

Lemma ensure_unknown m self :
  state self !! m = None ->
  _ensure m self = (bind_fresh m {| weight := 1000; theta := 500 |} self, Ok tt).
Proof.
  intros Hl. unfold _ensure, bind, gets, modify, ret.
  rewrite bool_decide_eq_false_2; [done|]. rewrite Hl. by intros [? ?].
Qed.

(** Case analysis on whether [_ensure m] finds the key: in the first case
    the call is rewritten away, in the second it becomes [bind_fresh]. *)
Ltac ensure_cases m self :=
  let E := fresh "E" in
  destruct (state self !! m) eqn:E;
  [ erewrite ensure_known by exact E
  | rewrite ensure_unknown by exact E ].

Lemma ensure_ok m self : snd (_ensure m self) = Ok tt.
Proof.
  by ensure_cases m self.
Qed.

Lemma ensure_binds m self :
  state (fst (_ensure m self)) !! m = Some (addr_of self m).
Proof.
  unfold addr_of. ensure_cases m self; [done|].
  simpl. apply lookup_insert_eq.
Qed.

Lemma update_eq m valid self :
  update m valid self = (settle valid (addr_of self m) (fst (_ensure m self)), Ok tt).
Proof.
  unfold update, bind at 1.
  pose proof (ensure_ok m self) as Hok. pose proof (ensure_binds m self) as Hb.
  destruct (_ensure m self) as [self1 r]. simpl in *. subst r.
  unfold bind at 1, subscript. rewrite Hb.
  unfold settle. by destruct valid.
Qed.

Lemma get_eq m self :
  get m self =
    (fst (_ensure m self),
     Ok (weight (heap (fst (_ensure m self)) (addr_of self m)),
         theta (heap (fst (_ensure m self)) (addr_of self m)))).
Proof.
  unfold get, bind at 1.
  pose proof (ensure_ok m self) as Hok. pose proof (ensure_binds m self) as Hb.
  destruct (_ensure m self) as [self1 r]. simpl in *. subst r.
  unfold bind at 1, subscript. rewrite Hb. done.
Qed.


Lemma settle_heap_at valid l self :
  heap (settle valid l self) l =
    {| weight := fst (verdict_step valid (weight (heap self l), theta (heap self l)));
       theta := snd (verdict_step valid (weight (heap self l), theta (heap self l))) |}.
Proof.
  unfold settle, store_theta, store_weight, verdict_step. simpl.
  rewrite !fn_lookup_insert. simpl. by destruct valid.
Qed.

Lemma settle_heap_ne valid l l' self :
  l <> l' -> heap (settle valid l self) l' = heap self l'.
Proof.
  intros Hne. unfold settle, store_theta, store_weight. simpl.
  by rewrite !fn_lookup_insert_ne.
Qed.

Lemma ensure_state_ne m m' self :
  m <> m' -> state (fst (_ensure m self)) !! m' = state self !! m'.
Proof.
  intros Hne. ensure_cases m self; [done|].
  simpl. by apply lookup_insert_ne.
Qed.

Lemma ensure_heap_old m self l :
  l <> next self -> heap (fst (_ensure m self)) l = heap self l.
Proof.
  intros Hne. ensure_cases m self; [done|].
  simpl. by apply fn_lookup_insert_ne.
Qed.

(** The pair [_ensure] leaves under the key is the standing of the model. *)
Lemma ensure_standing m self :
  (weight (heap (fst (_ensure m self)) (addr_of self m)),
   theta (heap (fst (_ensure m self)) (addr_of self m))) = standing self m.
Proof.
  unfold standing, peek, addr_of. ensure_cases m self; [done|].
  simpl. by rewrite fn_lookup_insert.
Qed.

Lemma peek_update_same m valid self :
  peek (fst (update m valid self)) m = Some (verdict_step valid (standing self m)).
Proof.
  rewrite update_eq. simpl. unfold peek.
  replace (state (settle valid (addr_of self m) (fst (_ensure m self))))
    with (state (fst (_ensure m self))) by done.
  rewrite ensure_binds, settle_heap_at. simpl.
  rewrite ensure_standing. by destruct (verdict_step valid (standing self m)).
Qed.

Lemma peek_get_same m self :
  peek (fst (get m self)) m = Some (standing self m).
Proof.
  rewrite get_eq. simpl. unfold peek. by rewrite ensure_binds, ensure_standing.
Qed.

(** ** Ranges *)

Lemma verdict_step_in_range valid e :
  in_range e ->
  in_range {| weight := fst (verdict_step valid (weight e, theta e));
              theta := snd (verdict_step valid (weight e, theta e)) |}.
Proof. unfold in_range, verdict_step. destruct valid; simpl; lia. Qed.

Lemma ensure_bounded m self : bounded self -> bounded (fst (_ensure m self)).
Proof.
  intros Hb. ensure_cases m self; [done|].
  intros m' l Hl. simpl in *.
  destruct (decide (next self = l)) as [<-|Hne].
  - rewrite fn_lookup_insert. unfold in_range. simpl. lia.
  - rewrite fn_lookup_insert_ne by done.
    destruct (decide (m = m')) as [<-|Hm].
    + rewrite lookup_insert_eq in Hl. congruence.
    + rewrite lookup_insert_ne in Hl by done. by eapply Hb.
Qed.

Lemma settle_bounded valid m l self :
  state self !! m = Some l -> bounded self -> bounded (settle valid l self).
Proof.
  intros Hm Hb m' l' Hl'.
  replace (state (settle valid l self)) with (state self) in Hl' by done.
  destruct (decide (l = l')) as [<-|Hne].
  - rewrite settle_heap_at. apply verdict_step_in_range. by eapply Hb.
  - rewrite settle_heap_ne by done. by eapply Hb.
Qed.

Lemma run_call_bounded c self : bounded self -> bounded (run_call c self).
Proof.
  intros Hb. destruct c as [m valid|m]; simpl.
  - rewrite update_eq. simpl. eapply settle_bounded;
      [apply ensure_binds|by apply ensure_bounded].
  - rewrite get_eq. simpl. by apply ensure_bounded.
Qed.

Lemma run_calls_bounded cs self : bounded self -> bounded (run_calls cs self).
Proof.
  revert self. induction cs as [|c cs IH]; intros self Hb; [done|].
  simpl. apply IH. by apply run_call_bounded.
Qed.

Lemma init_bounded : bounded Controller_init.
Proof. intros m l Hl. simpl in Hl. by rewrite lookup_empty in Hl. Qed.

(** ** Aliasing *)

Lemma ensure_unaliased m self : unaliased self -> unaliased (fst (_ensure m self)).
Proof.
  intros [Hlt Hinj]. ensure_cases m self; [done|].
  split; simpl.
  - intros m' l Hl. destruct (decide (m = m')) as [<-|Hm].
    + rewrite lookup_insert_eq in Hl. inversion Hl. lia.
    + rewrite lookup_insert_ne in Hl by done. apply Hlt in Hl. lia.
  - intros m1 m2 l H1 H2.
    destruct (decide (m = m1)) as [<-|Hm1], (decide (m = m2)) as [<-|Hm2];
      [done| | |].
    + rewrite lookup_insert_eq in H1. rewrite lookup_insert_ne in H2 by done.
      inversion H1; subst. apply Hlt in H2. lia.
    + rewrite lookup_insert_eq in H2. rewrite lookup_insert_ne in H1 by done.
      inversion H2; subst. apply Hlt in H1. lia.
    + rewrite lookup_insert_ne in H1, H2 by done. by eapply Hinj.
Qed.

Lemma run_call_unaliased c self : unaliased self -> unaliased (run_call c self).
Proof.
  intros Hu. destruct c as [m valid|m]; simpl.
  - rewrite update_eq. simpl. by apply (ensure_unaliased m) in Hu.
  - rewrite get_eq. simpl. by apply ensure_unaliased.
Qed.

Lemma run_calls_unaliased cs self : unaliased self -> unaliased (run_calls cs self).
Proof.
  revert self. induction cs as [|c cs IH]; intros self Hb; [done|].
  simpl. apply IH. by apply run_call_unaliased.
Qed.

Lemma init_unaliased : unaliased Controller_init.
Proof.
  split; simpl.
  - intros m l Hl. by rewrite lookup_empty in Hl.
  - intros m1 m2 l Hl. by rewrite lookup_empty in Hl.
Qed.

Lemma peek_ensure_other m m' self :
  unaliased self -> m <> m' -> peek (fst (_ensure m self)) m' = peek self m'.
Proof.
  intros [Hlt _] Hne. unfold peek. rewrite ensure_state_ne by done.
  destruct (state self !! m') as [l'|] eqn:E; [|done].
  apply Hlt in E. rewrite ensure_heap_old by lia. done.
Qed.

Lemma peek_update_other m m' valid self :
  unaliased self -> m <> m' -> peek (fst (update m valid self)) m' = peek self m'.
Proof.
  intros Hu Hne. rewrite update_eq. simpl.
  rewrite <- (peek_ensure_other m m' self) by done.
  pose proof (ensure_unaliased m self Hu) as [_ Hinj].
  pose proof (ensure_binds m self) as Hb.
  unfold peek.
  replace (state (settle valid (addr_of self m) (fst (_ensure m self))))
    with (state (fst (_ensure m self))) by done.
  destruct (state (fst (_ensure m self)) !! m') as [l'|] eqn:E; [|done].
  rewrite settle_heap_ne; [done|].
  intros <-. apply Hne. by eapply Hinj.
Qed.


Lemma get_returns_standing m self : snd (get m self) = Ok (standing self m).
Proof. rewrite get_eq. simpl. by rewrite ensure_standing. Qed.

Lemma standing_after_update m valid self :
  standing (fst (update m valid self)) m = verdict_step valid (standing self m).
Proof. unfold standing at 1. by rewrite peek_update_same. Qed.

Lemma standing_in_range m self w t :
  bounded self -> standing self m = (w, t) -> 0 <= w <= 1000 /\ 50 <= t <= 500.
Proof.
  intros Hb. unfold standing, peek.
  destruct (state self !! m) as [l|] eqn:E; simpl.
  - intros [= <- <-]. by apply (Hb m l).
  - intros [= <- <-]. lia.
Qed.

(** C4. A model id not seen before stands at (1000, 500); a good verdict
    takes (w, t) to (min(1000, w+30), max(50, t-8)) and a bad one to
    (max(0, w-100), min(500, t+30)); hence after any series of calls on a
    fresh controller every weight is in [0, 1000] and every theta in
    [50, 500]. *)
Theorem C4_controller_update (cs : list Call) (m : string) :
  let c := run_calls cs Controller_init in
  (state c !! m = None -> snd (get m c) = Ok (1000, 500))
  /\ (forall w t, snd (get m c) = Ok (w, t) ->
        snd (update m true c) = Ok tt
        /\ snd (get m (fst (update m true c)))
             = Ok (Z.min 1000 (w + 30), Z.max 50 (t - 8))
        /\ snd (update m false c) = Ok tt
        /\ snd (get m (fst (update m false c)))
             = Ok (Z.max 0 (w - 100), Z.min 500 (t + 30)))
  /\ (forall m' w t, snd (get m' c) = Ok (w, t) ->
        0 <= w <= 1000 /\ 50 <= t <= 500).
Proof.
  intros c. split; [|split].
  - intros Hm. rewrite get_returns_standing. unfold standing, peek. by rewrite Hm.
  - intros w t. rewrite !get_returns_standing, !standing_after_update.
    intros [= ->]. rewrite !update_eq. done.
  - intros m' w t. rewrite get_returns_standing. intros [= Hs].
    eapply standing_in_range; [|exact Hs].
    apply run_calls_bounded, init_bounded.
Qed.

(** C8. [get] on a model id that is not in the state returns (1000, 500) and
    binds the id to a new default entry: the controller is changed by the
    observation. *)
Theorem C8_get_inserts_default (self : Controller) (m : string) :
  state self !! m = None ->
  snd (get m self) = Ok (1000, 500)
  /\ state (fst (get m self)) = <[m := next self]> (state self)
  /\ heap (fst (get m self)) (next self) = {| weight := 1000; theta := 500 |}
  /\ peek (fst (get m self)) m = Some (1000, 500)
  /\ state (fst (get m self)) <> state self.
Proof.
  intros Hm.
  assert (Hst : standing self m = (1000, 500)).
  { unfold standing, peek. by rewrite Hm. }
  split; [by rewrite get_returns_standing, Hst|].
  rewrite peek_get_same, Hst. rewrite get_eq, ensure_unknown by done. simpl.
  split; [done|]. split; [by rewrite fn_lookup_insert|]. split; [done|].
  intros Heq. apply (f_equal (fun st => st !! m)) in Heq.
  rewrite lookup_insert_eq, Hm in Heq. done.
Qed.

Lemma C8_get_inserts_default_witness :
  snd (get "honest_00" Controller_init) = Ok (1000, 500)
  /\ peek (fst (get "honest_00" Controller_init)) "honest_00" = Some (1000, 500).
Proof.
  pose proof (C8_get_inserts_default Controller_init "honest_00" eq_refl)
    as (H1 & _ & _ & H4 & _).
  exact (conj H1 H4).
Defined.

(** C9. On a controller built by calls of [update] and [get], [update m v]
    leaves the (weight, theta) pair of every other model id as it was. *)
Theorem C9_update_frame (cs : list Call) (m m' : string) (valid : bool) :
  m' <> m ->
  let c := run_calls cs Controller_init in
  peek (fst (update m valid c)) m' = peek c m'
  /\ snd (get m' (fst (update m valid c))) = snd (get m' c).
Proof.
  intros Hne c.
  assert (Hu : unaliased c) by apply run_calls_unaliased, init_unaliased.
  assert (Hp : peek (fst (update m valid c)) m' = peek c m').
  { apply peek_update_other; [done|]. by intros ->. }
  split; [done|]. rewrite !get_returns_standing. unfold standing. by rewrite Hp.
Qed.

Lemma C9_update_frame_witness :
  peek (fst (update "att_sig_00" false
               (run_calls [CallUpdate "honest_00" true; CallUpdate "att_sig_00" false]
                          Controller_init))) "honest_00"
  = Some (1000, 492).
Proof.
  refine (eq_trans
    (proj1 (C9_update_frame
              [CallUpdate "honest_00" true; CallUpdate "att_sig_00" false]
              "att_sig_00" "honest_00" false _)) _).
  - intros Heq. discriminate Heq.
  - vm_compute. reflexivity.
Defined.

End ControllerFacts.

(** * Facts about crypto_utils.py and run_stress.py *)
Section VerificationFacts.
Import CryptoUtils Lineage Models Stress Audit.
Context `{CryptoLib}.

Lemma verify_signature_64 vk msg sig :
  length sig = crypto_sign_BYTES ->
  verify_signature vk msg sig = Ok (crypto_sign_open vk (sig ++ msg)).
Proof.
  intros Hlen. unfold verify_signature, VerifyKey_verify.
  rewrite Hlen, Nat.eqb_refl. simpl. by destruct (crypto_sign_open _ _).
Qed.

Lemma verify_signature_other_length vk msg sig :
  length sig <> crypto_sign_BYTES ->
  verify_signature vk msg sig = Raise NaClValueError.
Proof.
  intros Hlen. unfold verify_signature, VerifyKey_verify.
  apply Nat.eqb_neq in Hlen. by rewrite Hlen.
Qed.

(** C7 (the code departs from the claim). A signature that is not 64 bytes
    long, here the empty one, makes [verify_signature] raise: the length
    check of [VerifyKey.verify] raises an exception that is not
    [BadSignatureError], and only that one is caught. *)
Theorem C7_verify_signature_raises (vk msg : list byte) :
  verify_signature vk msg [] = Raise NaClValueError.
Proof. by apply verify_signature_other_length. Qed.

(** [verify_event_full] in closed form, when the signature check returns. *)
Lemma verify_event_full_eq ev vk w sig_ok :
  verify_signature vk (canonical_bytes ev) (signature ev) = Ok sig_ok ->
  verify_event_full ev vk w =
    (let ok := sig_ok && commit_check ev && eventhash_check ev in
     ((fst (Controller.update (Lineage.model_id ev) ok (fst w)),
       tally sig_ok (commit_check ev) (eventhash_check ev) (Lineage.model_id ev) (snd w)),
      Ok ok)).
Proof.
  intros Hsig. destruct w as [ctl st].
  unfold verify_event_full, tally.
  unfold bind at 1. unfold on_stats at 1, modify at 1. simpl.
  unfold bind at 1, lift_result. rewrite Hsig.
  generalize (incr_total_events st) as st1. intros st1.
  generalize (commit_check ev) as co, (eventhash_check ev) as ho. intros co ho.
  assert (Hupd : forall b c, snd (Controller.update (Lineage.model_id ev) b c) = Ok tt).
  { intros b c. by rewrite update_eq. }
  destruct sig_ok, co, ho; simpl;
    unfold bind, when, on_stats, on_controller, modify, ret; simpl;
    match goal with
    | |- context [Controller.update ?m ?b ?c] =>
        pose proof (Hupd b c) as Hu;
        destruct (Controller.update m b c) as [c' r]; simpl in *; subst r
    end; reflexivity.
Qed.

Lemma verify_event_full_raise ev vk w e :
  verify_signature vk (canonical_bytes ev) (signature ev) = Raise e ->
  verify_event_full ev vk w = ((fst w, incr_total_events (snd w)), Raise e).
Proof.
  intros Hsig. destruct w as [ctl st].
  unfold verify_event_full.
  unfold bind at 1. unfold on_stats at 1, modify at 1. simpl.
  unfold bind at 1, lift_result. by rewrite Hsig.
Qed.


(** C3 (amended). When the signature check returns [sig_ok], full
    verification returns [sig_ok AND commit_ok AND hash_ok] with the three
    checks of the specification, a verdict that depends on the event and the
    key only; it is not pure: it counts the event and its failed checks in
    the statistics and applies [Controller.update] with the verdict to the
    controller. *)
Theorem C3_full_verification (ev : Event) (vk : list byte) (w : World)
    (sig_ok : bool) :
  verify_signature vk (canonical_bytes ev) (signature ev) = Ok sig_ok ->
  let commit_ok :=
    String.eqb (commit_payload (PStr (payload ev))) (payload_commit ev) in
  let hash_ok :=
    String.eqb (hash_payload (Lineage.model_id ev) (index ev) (prev_hash ev)
                             (PStr (payload ev)) (ts ev)) (event_hash ev)
    && String.eqb (payload_hash ev) (event_hash ev) in
  let ok := sig_ok && commit_ok && hash_ok in
  snd (verify_event_full ev vk w) = Ok ok
  /\ (forall w', snd (verify_event_full ev vk w') = Ok ok)
  /\ fst (fst (verify_event_full ev vk w))
       = fst (Controller.update (Lineage.model_id ev) ok (fst w))
  /\ snd (fst (verify_event_full ev vk w))
       = tally sig_ok commit_ok hash_ok (Lineage.model_id ev) (snd w)
  /\ total_events (snd (fst (verify_event_full ev vk w)))
       = total_events (snd w) + 1.
Proof.
  intros Hsig commit_ok hash_ok ok.
  split; [by rewrite (verify_event_full_eq _ _ _ _ Hsig)|].
  split; [intros w'; by rewrite (verify_event_full_eq _ _ _ _ Hsig)|].
  rewrite (verify_event_full_eq _ _ _ _ Hsig). simpl.
  split; [done|]. split; [done|].
  unfold tally. fold commit_ok hash_ok.
  by destruct sig_ok, (commit_check ev), (eventhash_check ev).
Qed.

(** C10. A rebuilt event carries the commitment and the hash of its own
    fields, with [payload_hash] equal to [event_hash], so the commitment and
    hash checks of full verification pass whatever the signature is. *)
Theorem C10_rebuild_event (m : string) (i : Z) (p prev : string) (t : Z)
    (sig : list byte) :
  let e := rebuild_event m i p prev t sig in
  payload_commit e = commit_payload (PStr p)
  /\ event_hash e = hash_payload m i prev (PStr p) t
  /\ payload_hash e = event_hash e
  /\ commit_check e = true
  /\ eventhash_check e = true
  /\ (forall vk w sig_ok,
        verify_signature vk (canonical_bytes e) (signature e) = Ok sig_ok ->
        snd (verify_event_full e vk w) = Ok sig_ok).
Proof.
  intros e.
  assert (Hc : commit_check e = true) by apply String.eqb_refl.
  assert (Hh : eventhash_check e = true).
  { unfold eventhash_check. simpl. by rewrite !String.eqb_refl. }
  repeat split; try done.
  intros vk w sig_ok Hsig. rewrite (verify_event_full_eq _ _ _ _ Hsig). simpl.
  rewrite Hc, Hh. by destruct sig_ok.
Qed.

End VerificationFacts.

Section VerificationExamples.
Import CryptoUtils Lineage Models Stress Audit.

Lemma C3_full_verification_witness :
  snd (@verify_event_full sample_lib sample_event []
         (Controller.Controller_init, AnomalyStats_init)) = Ok false.
Proof.
  refine (proj1 (@C3_full_verification sample_lib sample_event []
                   (Controller.Controller_init, AnomalyStats_init) false _)).
  vm_compute. reflexivity.
Defined.

(** C3 as stated fails: whatever the primitives are, verifying the sample
    event changes the state it is given (one more event is counted). *)
Lemma C3_verification_not_pure :
  ~ (exists L : CryptoLib,
       fst (@verify_event_full L sample_event []
              (Controller.Controller_init, AnomalyStats_init))
       = (Controller.Controller_init, AnomalyStats_init)).
Proof.
  intros [L Heq].
  apply (f_equal (fun w : World => total_events (snd w))) in Heq.
  pose proof (@verify_signature_64 L [] (canonical_bytes sample_event)
                (signature sample_event) eq_refl) as Hsig.
  rewrite (verify_event_full_eq _ _ _ _ Hsig) in Heq. simpl in Heq.
  unfold tally in Heq.
  destruct (crypto_sign_open _ _), (commit_check _), (eventhash_check _);
    simpl in Heq; discriminate Heq.
Qed.

End VerificationExamples.


(** * Facts about models.py *)
Section EmissionFacts.
Import CryptoUtils Lineage Models Ledger Emission.
Context `{CryptoLib}.

Lemma next_ts_eq s now a :
  _next_ts s now a = (set_last_ts (chosen_ts a s now) a, Ok (chosen_ts a s now)).
Proof. done. Qed.

(** [make_event] in closed form. *)
Lemma make_event_eq s payload cheat now a :
  exists e,
    make_event s payload cheat now a = (set_last_ts (chosen_ts a s now) a, Ok e)
    /\ ts e = chosen_ts a s now
    /\ Lineage.model_id e = model_id a
    /\ index e = next_index s
    /\ prev_hash e = last_hash s (model_id a).
Proof.
  eexists. split.
  - cbv beta iota zeta delta [make_event bind gets _next_ts modify ret].
    fold (chosen_ts a s now). reflexivity.
  - done.
Qed.

Lemma chosen_ts_above_last a s now : _last_ts a < chosen_ts a s now.
Proof. unfold chosen_ts, max3. lia. Qed.

Lemma chosen_ts_above_db a s now d :
  last_ts s (model_id a) = Some d -> d < chosen_ts a s now.
Proof. unfold chosen_ts, max3. intros ->. lia. Qed.

Lemma emit_many_increasing calls a :
  StronglySorted Z.lt (ts <$> emit_many calls a)
  /\ Forall (fun e => _last_ts a < ts e) (emit_many calls a).
Proof.
  revert a. induction calls as [|c calls IH]; intros a; [by split; constructor|].
  cbn [emit_many].
  destruct (make_event_eq (call_store c) (call_payload c) (call_cheat c)
              (call_now c) a) as (e & -> & Hts & _).
  destruct (IH (set_last_ts (chosen_ts a (call_store c) (call_now c)) a))
    as [Hs Hall].
  pose proof (chosen_ts_above_last a (call_store c) (call_now c)) as Hlt.
  rewrite <- Hts in Hlt.
  assert (Hall' : Forall (fun x => ts e < ts x)
            (emit_many calls
               (set_last_ts (chosen_ts a (call_store c) (call_now c)) a))).
  { eapply Forall_impl; [exact Hall|]. intros x Hx. simpl in Hx. by rewrite Hts. }
  split.
  - rewrite fmap_cons. constructor; [done|]. by apply Forall_fmap.
  - constructor; [done|]. eapply Forall_impl; [exact Hall'|].
    intros x Hx. simpl in *. lia.
Qed.

(** In a list sorted by [<] the last element bounds the others. *)
Lemma sorted_last_bound (l : list Z) d x :
  StronglySorted Z.lt l -> last l = Some d -> x ∈ l -> x <= d.
Proof.
  intros Hs Hl Hx. apply last_Some in Hl as [l' ->].
  apply StronglySorted_app in Hs as (Hlt & _ & _).
  apply elem_of_app in Hx as [Hx|Hx].
  - apply Z.lt_le_incl, Hlt; [done|]. by apply list_elem_of_singleton.
  - apply list_elem_of_singleton in Hx. lia.
Qed.

Lemma sorted_snoc (l : list Z) x :
  StronglySorted Z.lt l -> (forall d, last l = Some d -> d < x) ->
  StronglySorted Z.lt (l ++ [x]).
Proof.
  intros Hs Hx. apply StronglySorted_app_2; [|done|repeat constructor].
  intros x1 x2 H1 H2. apply list_elem_of_singleton in H2 as ->.
  destruct (last l) as [d|] eqn:El.
  - pose proof (sorted_last_bound l d x1 Hs El H1). specialize (Hx d eq_refl). lia.
  - apply last_None in El. subst. by inversion H1.
Qed.

Lemma where_model_snoc_same m t e :
  Lineage.model_id e = m -> sql_where_model m (t ++ [e]) = sql_where_model m t ++ [e].
Proof.
  intros Hm. unfold sql_where_model.
  rewrite filter_app, filter_cons, filter_nil. by rewrite decide_True.
Qed.

Lemma where_model_snoc_other m t e :
  Lineage.model_id e <> m -> sql_where_model m (t ++ [e]) = sql_where_model m t.
Proof.
  intros Hm. unfold sql_where_model.
  rewrite filter_app, filter_cons, filter_nil. rewrite decide_False by done.
  apply app_nil_r.
Qed.

Lemma append_rows_cases e s :
  rows (fst (append e s)) = rows s
  \/ (rows (fst (append e s)) = rows s ++ [e]
      /\ index e = next_index s /\ prev_hash e = last_hash s (Lineage.model_id e)).
Proof.
  destruct (append_cases e s)
    as [(_ & ->)|[(_ & _ & ->)|[(_ & _ & _ & ->)|(Hi & Hp & _ & ->)]]];
    [by left..|].
  right. cbn [fst]. by rewrite appended_rows.
Qed.

Lemma append_durable_cases e s :
  durable (fst (append e s)) = durable s
  \/ durable (fst (append e s)) = rows (fst (append e s)).
Proof.
  destruct (append_cases e s)
    as [(_ & ->)|[(_ & _ & ->)|[(_ & _ & _ & ->)|(Hi & Hp & _ & ->)]]];
    [by left..|].
  cbn [fst]. unfold appended, commit_policy.
  destruct (autocommit _ && _); [by right|by left].
Qed.

Lemma table_ok_emitted m a s e now :
  model_id a = m -> table_ok m (rows s) ->
  Lineage.model_id e = m -> index e = next_index s ->
  prev_hash e = last_hash s m -> ts e = chosen_ts a s now ->
  table_ok m (rows s ++ [e]).
Proof.
  intros Hm [Hinv Hts] Hme Hie Hpe Hte. split.
  - apply ledger_inv_snoc; [done..|]. by rewrite Hme.
  - rewrite where_model_snoc_same, fmap_snoc by done.
    apply sorted_snoc; [done|]. intros d Hd. rewrite Hte.
    apply chosen_ts_above_db. rewrite Hm.
    destruct Hinv as (_ & Hsorted & _).
    rewrite last_ts_sorted by done. by rewrite <- fmap_last.
Qed.

Lemma table_ok_foreign m s e :
  Lineage.model_id e <> m -> table_ok m (rows s) ->
  table_ok m (rows (fst (append e s))).
Proof.
  intros He [Hinv Hts]. split; [by apply append_keeps_inv|].
  destruct (append_rows_cases e s) as [->|(-> & _ & _)]; [done|].
  by rewrite where_model_snoc_other.
Qed.

Lemma run_step_keeps_inv m st step : run_inv m st -> run_inv m (run_step st step).
Proof.
  destruct st as [a s]. intros (Hm & Hrows & Hdur). simpl in *.
  destruct step as [payload cheat now|keys|keys|e]; cbn [run_step fst snd].
  - destruct (make_event_eq s payload cheat now a)
      as (e & -> & Hte & Hme & Hie & Hpe).
    rewrite Hm in Hme, Hpe.
    assert (Hok : table_ok m (rows (fst (append e s)))).
    { destruct (append_rows_cases e s) as [->|(-> & _ & _)]; [done|].
      by eapply table_ok_emitted. }
    split; [done|]. split; [done|]. cbn [snd].
    by destruct (append_durable_cases e s) as [->| ->].
  - done.
  - done.
  - destruct (decide (Lineage.model_id e = model_id a)) as [He|He]; [done|].
    rewrite Hm in He.
    assert (Hok : table_ok m (rows (fst (append e s))))
      by by apply table_ok_foreign.
    split; [done|]. split; [done|]. cbn [snd].
    by destruct (append_durable_cases e s) as [->| ->].
Qed.

Lemma run_steps_keeps_inv m steps st : run_inv m st -> run_inv m (run_steps steps st).
Proof.
  revert st. induction steps as [|step steps IH]; intros st Hst; [done|].
  simpl. apply IH. by apply run_step_keeps_inv.
Qed.

(** C5 (amended). The timestamp of an event is
    max(clock, last_ts + 1, store.last_ts(model_id) + 1 or 0) and becomes the
    agent's [last_ts]; on one agent object the timestamps of any series of
    [make_event] calls increase strictly, whatever the clock and the stores
    are; a new agent object exceeds the latest timestamp the store holds for
    its model id; so the timestamps of the chain that the store holds for a
    model increase strictly, across restarts after a commit and across
    crashes that lose the uncommitted rows. *)
Theorem C5_monotone_timestamps :
  (forall a s payload cheat now,
      exists e,
        make_event s payload cheat now a
          = (set_last_ts
               (max3 now (_last_ts a + 1)
                     (match last_ts s (model_id a) with
                      | Some t => t + 1
                      | None => 0
                      end)) a, Ok e)
        /\ ts e = max3 now (_last_ts a + 1)
                       (match last_ts s (model_id a) with
                        | Some t => t + 1
                        | None => 0
                        end)
        /\ _last_ts (fst (make_event s payload cheat now a)) = ts e)
  /\ (forall calls a, StronglySorted Z.lt (ts <$> emit_many calls a))
  /\ (forall m keys s payload cheat now e d,
        snd (make_event s payload cheat now (BaseModel_init m keys)) = Ok e ->
        last_ts s m = Some d -> d < ts e)
  /\ (forall m keys ac steps,
        StronglySorted Z.lt
          (ts <$> get_chain
                    (snd (run_steps steps
                            (BaseModel_init m keys, LineageStore_init [] ac))) m)).
Proof.
  split; [|split; [|split]].
  - intros a s payload cheat now.
    destruct (make_event_eq s payload cheat now a) as (e & He & Hts & _).
    exists e. rewrite He. split; [done|]. split; [done|]. by rewrite Hts.
  - intros calls a. apply emit_many_increasing.
  - intros m keys s payload cheat now e d He Hd.
    destruct (make_event_eq s payload cheat now (BaseModel_init m keys))
      as (e' & He' & Hts & _).
    rewrite He' in He. simpl in He. inversion He; subst e'. rewrite Hts.
    by apply chosen_ts_above_db.
  - intros m keys ac steps.
    assert (Hinv : run_inv m (run_steps steps
                     (BaseModel_init m keys, LineageStore_init [] ac))).
    { apply run_steps_keeps_inv.
      assert (Hnil : table_ok m []) by (split; [apply ledger_inv_nil|constructor]).
      by split. }
    destruct Hinv as (_ & ((_ & Hsorted & _) & Hts) & _).
    by rewrite get_chain_sorted.
Qed.

End EmissionFacts.

Section EmissionExamples.
Import CryptoUtils Lineage Models Ledger Emission.

(** C5 as stated fails: agent A makes an event at clock 2000 which is not
    appended; after a restart (a new object for A) the clock reads 1500 and
    the next event is stamped 1500, whatever the primitives are. *)
Lemma C5_restart_goes_backwards :
  ~ (exists (L : CryptoLib) (e1 e2 : Event),
       snd (@make_event L (LineageStore_init [] true) "first" false 2000
              (BaseModel_init "A" ([], []))) = Ok e1
       /\ snd (@make_event L (LineageStore_init [] true) "second" false 1500
                 (BaseModel_init "A" ([], []))) = Ok e2
       /\ ts e1 < ts e2).
Proof.
  intros (L & e1 & e2 & H1 & H2 & Hlt).
  destruct (@make_event_eq L (LineageStore_init [] true) "first" false 2000
              (BaseModel_init "A" ([], []))) as (x1 & Hx1 & Ht1 & _).
  destruct (@make_event_eq L (LineageStore_init [] true) "second" false 1500
              (BaseModel_init "A" ([], []))) as (x2 & Hx2 & Ht2 & _).
  rewrite Hx1 in H1. rewrite Hx2 in H2. simpl in H1, H2.
  injection H1 as ->. injection H2 as ->.
  assert (E1 : ts e1 = 2000) by (rewrite Ht1; reflexivity).
  assert (E2 : ts e2 = 1500) by (rewrite Ht2; reflexivity).
  lia.
Qed.

End EmissionExamples.

(** * Facts about the mutation hooks *)
Section HookFacts.
Import CryptoUtils Lineage Models Stress Audit.
Context `{CryptoLib}.

Lemma assign_eq f ev (h : EventHeap) : assign f ev h = (alter f ev h, Ok tt).
Proof. done. Qed.

Lemma CommitDrift_eq rate draw mode ev (h : EventHeap) :
  CommitDriftAttacker_mutate_event rate draw mode ev h =
    (if Qle_bool rate draw then h
     else
       let h1 := if touches_commit mode
                 then alter (with_payload_commit (str_repeat "DEAD" 16)) ev h
                 else h in
       if touches_hash mode
       then alter payload_hash_from_event_hash ev
              (alter (with_event_hash (str_repeat "BEEF" 16)) ev h1)
       else h1,
     Ok ev).
Proof.
  unfold CommitDriftAttacker_mutate_event.
  destruct (Qle_bool rate draw); [done|]. by destruct mode.
Qed.

Lemma SlowDrip_eq rate draw ev (h : EventHeap) :
  SlowDripAttacker_mutate_event rate draw ev h =
    (if Qle_bool rate draw then h else alter (payload_extended "_shadow") ev h,
     Ok ev).
Proof.
  unfold SlowDripAttacker_mutate_event. by destruct (Qle_bool rate draw).
Qed.

Lemma alter_snoc {A} (f : A -> A) (l : list A) (x : A) :
  alter f (length l) (l ++ [x]) = l ++ [f x].
Proof.
  rewrite <- (Nat.add_0_r (length l)) at 1. by rewrite alter_app_r.
Qed.

(** The path of the harness: the one object that [AttackerModel.make_event]
    builds is the one the hook rewrites and the one that is returned. *)
Lemma attacker_event_rewritten (hook : nat -> M EventHeap nat) (f : Event -> Event)
    store payload cheat now a (h : EventHeap) :
  (forall ev (h' : EventHeap), hook ev h' = (alter f ev h', Ok ev)) ->
  exists e,
    make_event store payload cheat now a
      = (fst (make_event store payload cheat now a), Ok e)
    /\ AttackerModel_make_event hook store payload cheat now (a, h)
       = ((fst (make_event store payload cheat now a), h ++ [f e]), Ok (length h)).
Proof.
  intros Hhook.
  destruct (make_event_eq store payload cheat now a) as (e & He & _).
  exists e. rewrite He. split; [done|].
  unfold AttackerModel_make_event, bind, on_agent, on_heap, new_event.
  cbn [fst snd]. rewrite He. cbn [fst snd]. rewrite Hhook.
  by rewrite alter_snoc.
Qed.

Lemma CommitDrift_fires rate draw mode ev (h : EventHeap) :
  Qle_bool rate draw = false ->
  CommitDriftAttacker_mutate_event rate draw mode ev h
  = (alter (drifted mode) ev h, Ok ev).
Proof.
  intros Hf. rewrite CommitDrift_eq, Hf. f_equal.
  destruct mode; cbn [touches_commit touches_hash];
    rewrite ?list_alter_alter_eq;
    (apply list_alter_ext; [by intros [] _|done]).
Qed.

Lemma SlowDrip_fires rate draw ev (h : EventHeap) :
  Qle_bool rate draw = false ->
  SlowDripAttacker_mutate_event rate draw ev h
  = (alter (payload_extended "_shadow") ev h, Ok ev).
Proof. intros Hf. by rewrite SlowDrip_eq, Hf. Qed.

(** C6 (amended). An event is a mutable record.  The two hooks return the
    very object they were given and construct none; when they fire they
    rewrite fields of that object in place, leaving every other object, and
    the signature of this one, as they were; [canonical_bytes] reads the
    fields the object has when it is called.  On the path of the harness,
    [AttackerModel.make_event], the one event object that is built is the
    one that is rewritten and returned. *)
Theorem C6_hooks_rewrite_in_place (rate draw : Q) (mode : DriftMode) (ev : nat)
    (h : EventHeap) :
  (let r := CommitDriftAttacker_mutate_event rate draw mode ev h in
   snd r = Ok ev
   /\ length (fst r) = length h
   /\ (forall a, a <> ev -> fst r !! a = h !! a)
   /\ fst r !! ev = (if Qle_bool rate draw then id else drifted mode) <$> h !! ev)
  /\ (let r := SlowDripAttacker_mutate_event rate draw ev h in
      snd r = Ok ev
      /\ length (fst r) = length h
      /\ (forall a, a <> ev -> fst r !! a = h !! a)
      /\ fst r !! ev
         = (if Qle_bool rate draw then id else payload_extended "_shadow") <$> h !! ev)
  /\ (forall e,
        signature (drifted mode e) = signature e
        /\ signature (payload_extended "_shadow" e) = signature e
        /\ canonical_bytes (drifted mode e) =
             encode_utf8
               (Lineage.model_id e +:+ "|" +:+ str_int (index e) +:+ "|"
                  +:+ prev_hash e +:+ "|"
                  +:+ (if touches_hash mode then str_repeat "BEEF" 16 else event_hash e)
                  +:+ "|"
                  +:+ (if touches_commit mode then str_repeat "DEAD" 16
                       else payload_commit e)
                  +:+ "|" +:+ str_int (ts e)))
  /\ (forall store payload cheat now a,
        Qle_bool rate draw = false ->
        exists e,
          make_event store payload cheat now a
            = (fst (make_event store payload cheat now a), Ok e)
          /\ AttackerModel_make_event
               (CommitDriftAttacker_mutate_event rate draw mode)
               store payload cheat now (a, h)
             = ((fst (make_event store payload cheat now a),
                 h ++ [drifted mode e]), Ok (length h))
          /\ AttackerModel_make_event
               (SlowDripAttacker_mutate_event rate draw)
               store payload cheat now (a, h)
             = ((fst (make_event store payload cheat now a),
                 h ++ [payload_extended "_shadow" e]), Ok (length h))).
Proof.
  split; [|split; [|split]]; cycle 3.
  { intros store payload cheat now a Hf.
    destruct (attacker_event_rewritten
                (CommitDriftAttacker_mutate_event rate draw mode) (drifted mode)
                store payload cheat now a h) as (e & He & Hd).
    { intros ev' h'. by apply CommitDrift_fires. }
    destruct (attacker_event_rewritten
                (SlowDripAttacker_mutate_event rate draw)
                (payload_extended "_shadow")
                store payload cheat now a h) as (e' & He' & Hs).
    { intros ev' h'. by apply SlowDrip_fires. }
    assert (e' = e) as -> by congruence.
    by exists e. }
  - rewrite CommitDrift_eq. cbn [fst snd]. split; [done|].
    destruct (Qle_bool rate draw).
    + split; [done|]. split; [done|]. by destruct (h !! ev).
    + split; [|split].
      * destruct mode; cbn [touches_commit touches_hash];
          by rewrite ?length_alter.
      * intros a Ha. destruct mode; cbn [touches_commit touches_hash];
          by rewrite ?list_lookup_alter_ne by done.
      * destruct mode; cbn [touches_commit touches_hash];
          rewrite ?list_lookup_alter_eq; by destruct (h !! ev).
  - rewrite SlowDrip_eq. cbn [fst snd]. split; [done|].
    destruct (Qle_bool rate draw).
    + split; [done|]. split; [done|]. by destruct (h !! ev).
    + split; [apply length_alter|]. split.
      * intros a Ha. by rewrite list_lookup_alter_ne.
      * apply list_lookup_alter_eq.
  - intros e. split; [done|]. split; [done|]. done.
Qed.

(** C6 as stated fails: both hooks, when they fire, change an event that
    already exists. *)
Lemma C6_events_are_rewritten :
  ~ leaves_events_intact (CommitDriftAttacker_mutate_event (2 # 5) 0 both)
  /\ ~ leaves_events_intact (SlowDripAttacker_mutate_event (1 # 50) 0).
Proof.
  split; intros Hintact;
    specialize (Hintact [sample_event] 0%nat 0%nat sample_event eq_refl);
    vm_compute in Hintact; discriminate Hintact.
Qed.

End HookFacts.

(** * Sample runs of the model *)
Section Scenarios.
Import CryptoUtils Lineage Models Stress Audit Emission Scenario.

(** A genesis event, verified: one good verdict. *)
Example genesis_event :
  exists e,
    made (@make_event sample_lib (LineageStore_init [] true) "hello" false 1000
            (BaseModel_init "A" keys_A)) = Some e
    /\ index e = 0 /\ prev_hash e = GENESIS /\ ts e = 1000
    /\ payload_hash e = event_hash e
    /\ snd (@verify_event_full sample_lib e (snd keys_A) fresh_world) = Ok true
    /\ Controller.peek
         (fst (fst (@verify_event_full sample_lib e (snd keys_A) fresh_world))) "A"
       = Some (1000, 492).
Proof. eexists. split; [reflexivity|]. vm_compute. repeat split. Qed.

(** Two agents interleaved: the chain of A is rows 0 and 2, linked. *)
Example interleaved_chains :
  index <$> get_chain interleaved "A" = [0; 2]
  /\ index <$> get_chain interleaved "B" = [1]
  /\ prev_hash <$> get_chain interleaved "B" = [GENESIS]
  /\ prev_hash <$> get_chain interleaved "A"
     = GENESIS :: take 1 (event_hash <$> get_chain interleaved "A").
Proof. vm_compute. repeat split. Qed.

(** Signing the reversed bytes: the append succeeds, the verdict is bad. *)
Example cheat_is_detected :
  exists e,
    made (@make_event sample_lib (LineageStore_init [] true) "hello" true 1000
            (BaseModel_init "A" keys_A)) = Some e
    /\ snd (append e (LineageStore_init [] true)) = Ok tt
    /\ commit_check (H := sample_lib) e = true
    /\ eventhash_check (H := sample_lib) e = true
    /\ snd (@verify_event_full sample_lib e (snd keys_A) fresh_world) = Ok false
    /\ sig_invalid
         (snd (fst (@verify_event_full sample_lib e (snd keys_A) fresh_world))) = 1.
Proof. eexists. split; [reflexivity|]. vm_compute. repeat split. Qed.

(** An index one too far is refused and nothing is stored. *)
Example index_mismatch_rejected :
  append (mkEvent "A" 1 1000 "hello" GENESIS GENESIS GENESIS GENESIS [])
         (LineageStore_init [] true)
  = (LineageStore_init [] true, Raise (IndexMismatch 1 0)).
Proof. reflexivity. Qed.

(** A crash before the batch is committed loses the row: the event stamped
    2000 is gone and the chain restarts from the clock. *)
Example crash_loses_uncommitted :
  ts <$> get_chain
           (snd (@run_steps sample_lib
                   [Emit "first" false 2000; Crash keys_A; Emit "second" false 1500]
                   (BaseModel_init "A" keys_A, LineageStore_init [] true))) "A"
  = [1500].
Proof. vm_compute. reflexivity. Qed.

(** An event appended before a restart pushes the next timestamp up. *)
Example restart_after_append :
  ts <$> get_chain
           (snd (@run_steps sample_lib
                   [Emit "first" false 2000; Reboot keys_A; Emit "second" false 1500]
                   (BaseModel_init "A" keys_A, LineageStore_init [] true))) "A"
  = [2000; 2001].
Proof. vm_compute. reflexivity. Qed.

(** Two keys bound to one dict object (a state no call of the class
    produces): an update of one is seen under the other. *)
Example shared_dict_is_shared :
  let c := {| Controller.state := <["B" := 0%nat]> (<["A" := 0%nat]> ∅);
              Controller.heap := fun _ => {| Controller.weight := 1000;
                                             Controller.theta := 500 |};
              Controller.next := 1 |} in
  Controller.peek (fst (Controller.update "A" false c)) "B" = Some (900, 500).
Proof. vm_compute. reflexivity. Qed.

End Scenarios.

(** * More about lineage.py: reading back what was appended *)
Section LineageReadBack.
Import Lineage Ledger Batch.

Lemma sql_max_idx_snoc t e :
  sql_max_idx (t ++ [e]) =
    Some (match sql_max_idx t with
          | Some m => Z.max m (index e)
          | None => index e
          end).
Proof.
  induction t as [|r t IH]; [done|].
  simpl in *. rewrite IH. destruct (sql_max_idx t) as [m|]; f_equal; lia.
Qed.

Lemma insert_by_idx_snoc r l e :
  index r < index e ->
  sql_insert_by_idx r (l ++ [e]) = sql_insert_by_idx r l ++ [e].
Proof.
  intros Hlt. induction l as [|r' l IH]; simpl.
  - destruct (index r <=? index e) eqn:E; [done|lia].
  - destruct (index r <=? index r'); [done|]. by rewrite IH.
Qed.

Lemma order_by_idx_snoc t e :
  (forall r, r ∈ t -> index r < index e) ->
  sql_order_by_idx (t ++ [e]) = sql_order_by_idx t ++ [e].
Proof.
  induction t as [|r t IH]; intros Habove; [done|].
  simpl. fold (sql_order_by_idx (t ++ [e])). fold (sql_order_by_idx t).
  rewrite IH by (intros r' Hr'; apply Habove; by right).
  apply insert_by_idx_snoc, Habove. by left.
Qed.

Lemma limit_1_snoc t e :
  (forall r, r ∈ t -> index r < index e) ->
  sql_order_by_idx_desc_limit_1 (t ++ [e]) = Some e.
Proof.
  intros Habove. unfold sql_order_by_idx_desc_limit_1.
  by rewrite order_by_idx_snoc, reverse_snoc.
Qed.

(** What a successful [append] means, and what it leaves. *)
Lemma append_ok_inv e self :
  snd (append e self) = Ok tt ->
  index e = next_index self
  /\ prev_hash e = last_hash self (model_id e)
  /\ fst (append e self) = appended e self.
Proof.
  destruct (append_cases e self)
    as [(_ & ->)|[(_ & _ & ->)|[(_ & _ & _ & ->)|(Hi & Hp & _ & ->)]]];
    done.
Qed.

Lemma where_model_above m t e :
  (forall r, r ∈ t -> index r < index e) ->
  forall r, r ∈ sql_where_model m t -> index r < index e.
Proof.
  intros Habove r Hr. apply list_elem_of_filter in Hr as [_ Hr]. by apply Habove.
Qed.

(** X1. After a successful append of [e] the store answers accordingly:
    [next_index] is one more, [last_hash] and [last_ts] of the model of [e]
    are the hash and the timestamp of [e], its chain and [all_events] end
    with [e], and nothing changes for any other model id. *)
Theorem X1_append_then_read (self : LineageStore) (e : Event) :
  snd (append e self) = Ok tt ->
  next_index (fst (append e self)) = next_index self + 1
  /\ last_hash (fst (append e self)) (model_id e) = event_hash e
  /\ last_ts (fst (append e self)) (model_id e) = Some (ts e)
  /\ get_chain (fst (append e self)) (model_id e)
     = get_chain self (model_id e) ++ [e]
  /\ all_events (fst (append e self)) = all_events self ++ [e]
  /\ (forall m, m <> model_id e ->
        last_hash (fst (append e self)) m = last_hash self m
        /\ last_ts (fst (append e self)) m = last_ts self m
        /\ get_chain (fst (append e self)) m = get_chain self m).
Proof.
  intros Hok. destruct (append_ok_inv _ _ Hok) as (Hi & Hp & ->).
  assert (Habove : forall r, r ∈ rows self -> index r < index e).
  { intros r Hr. rewrite Hi. by apply next_index_above. }
  unfold next_index, last_hash, last_ts, get_chain, all_events.
  rewrite !appended_rows.
  assert (Hsame : sql_where_model (model_id e) (rows self ++ [e])
                  = sql_where_model (model_id e) (rows self) ++ [e]).
  { unfold sql_where_model. rewrite filter_app, filter_cons, filter_nil.
    by rewrite decide_True. }
  rewrite Hsame, limit_1_snoc by by apply where_model_above.
  rewrite !order_by_idx_snoc by (done || by apply where_model_above).
  split.
  { rewrite sql_max_idx_snoc. fold (next_index self) in Hi.
    unfold next_index in Hi.
    destruct (sql_max_idx (rows self)) as [m|]; lia. }
  repeat (split; [done|]).
  intros m Hm.
  assert (Hother : sql_where_model m (rows self ++ [e]) = sql_where_model m (rows self)).
  { unfold sql_where_model. rewrite filter_app, filter_cons, filter_nil.
    rewrite decide_False by done. apply app_nil_r. }
  by rewrite Hother.
Qed.

Lemma X1_append_then_read_witness :
  next_index (fst (append Audit.sample_event (LineageStore_init [] true)))
  = next_index (LineageStore_init [] true) + 1.
Proof.
  refine (proj1 (X1_append_then_read (LineageStore_init [] true)
                   Audit.sample_event _)).
  vm_compute. reflexivity.
Defined.

(** X2. The table only grows at its end: after any series of [append]
    calls the rows that were there are still there, in place and unchanged,
    followed by exactly the events whose [append] returned, in the order
    they were offered; a call that raised has added nothing. *)
Theorem X2_append_only (evs : list Event) (self : LineageStore) :
  rows (run_appends evs self) = rows self ++ accepted evs self
  /\ sublist (accepted evs self) evs
  /\ (forall ev, is_ok (snd (append ev self)) = false ->
        accepted (ev :: evs) self = accepted evs self
        /\ run_appends (ev :: evs) self = run_appends evs self).
Proof.
  split; [|split].
  - revert self. induction evs as [|ev evs IH]; intros self.
    + by rewrite app_nil_r.
    + change (run_appends (ev :: evs) self)
        with (run_appends evs (fst (append ev self))).
      rewrite IH. cbn [accepted].
      destruct (append_cases ev self)
        as [(_ & ->)|[(_ & _ & ->)|[(_ & _ & _ & ->)|(_ & _ & _ & ->)]]];
        cbn [fst snd is_ok]; [done..|].
      rewrite appended_rows. by rewrite <- app_assoc.
  - revert self. induction evs as [|ev evs IH]; intros self; [done|].
    cbn [accepted]. destruct (is_ok (snd (append ev self))); by constructor.
  - intros ev Hfail. cbn [accepted]. rewrite Hfail.
    change (run_appends (ev :: evs) self)
      with (run_appends evs (fst (append ev self))).
    destruct (append_cases ev self)
      as [(_ & Heq)|[(_ & _ & Heq)|[(_ & _ & _ & Heq)|(_ & _ & _ & Heq)]]];
      rewrite Heq in *; cbn [fst snd is_ok] in *; done.
Qed.

(** X3. An event cannot be appended twice: once [append] has accepted it,
    offering it again raises the index error and changes nothing. *)
Theorem X3_no_replay (self : LineageStore) (e : Event) :
  snd (append e self) = Ok tt ->
  append e (fst (append e self))
  = (fst (append e self), Raise (IndexMismatch (index e) (index e + 1))).
Proof.
  intros Hok.
  assert (Hn : next_index (fst (append e self)) = index e + 1).
  { destruct (append_ok_inv _ _ Hok) as (Hi & _ & _).
    unfold next_index at 1. destruct (append_ok_inv _ _ Hok) as (_ & _ & ->).
    rewrite appended_rows, sql_max_idx_snoc.
    unfold next_index in Hi. destruct (sql_max_idx (rows self)) as [m|]; lia. }
  rewrite (append_eq e (fst (append e self))), Hn.
  destruct (Z.eqb_spec (index e) (index e + 1)); [lia|done].
Qed.

Lemma X3_no_replay_witness :
  snd (append Audit.sample_event
         (fst (append Audit.sample_event (LineageStore_init [] true))))
  = Raise (IndexMismatch 0 1).
Proof.
  refine (eq_trans (f_equal snd (X3_no_replay (LineageStore_init [] true)
                                   Audit.sample_event _)) _).
  - vm_compute. reflexivity.
  - reflexivity.
Defined.

End LineageReadBack.

(** * More about lineage.py: batches and queries *)
Section BatchFacts.
Import Lineage Ledger Batch.

Lemma batch_inv_init disk ac : batch_inv disk ac (LineageStore_init disk ac).
Proof.
  split; [done|]. split; [exists []; split; [by rewrite app_nil_r|done]|].
  split; [exists []; by rewrite app_nil_r|]. split; [simpl; lia|done].
Qed.

Lemma batch_inv_append disk ac e s :
  batch_inv disk ac s -> batch_inv disk ac (fst (append e s)).
Proof.
  intros Hinv.
  destruct (append_cases e s)
    as [(_ & ->)|[(_ & _ & ->)|[(_ & _ & _ & ->)|(_ & _ & _ & ->)]]];
    [done..|].
  destruct Hinv as (Hac & (tail & Hrows & Hlen) & (progress & Hdur) & Hlt & Hoff).
  cbn [fst]. unfold appended, commit_policy. cbn [autocommit _pending set_pending set_rows].
  rewrite Hac. destruct ac; cbn [andb].
  - destruct (Z.leb_spec 1000 (_pending s + 1)).
    + split; [done|]. cbn [rows durable _pending set_pending conn_commit set_rows].
      split; [exists []; split; [by rewrite app_nil_r|done]|].
      split; [|split; [lia|done]].
      exists (progress ++ tail ++ [e]). rewrite Hrows, Hdur.
      by rewrite <- !app_assoc.
    + split; [done|]. cbn [rows durable _pending set_pending set_rows].
      split; [|split; [by exists progress|split; [lia|done]]].
      exists (tail ++ [e]). rewrite Hrows, <- app_assoc. split; [done|].
      rewrite length_app. simpl. lia.
  - split; [done|]. cbn [rows durable _pending set_pending set_rows].
    split; [|split; [by exists progress|split; [done|by apply Hoff]]].
    exists (tail ++ [e]). rewrite Hrows, <- app_assoc. split; [done|].
    rewrite length_app. simpl. lia.
Qed.

(** X4. Batched commits.  On a store opened on a database and after any
    series of appends, the table is the committed table followed by exactly
    [_pending] uncommitted rows, and the committed table extends what was on
    disk; with [autocommit] fewer than 1000 rows are ever uncommitted,
    without it nothing is committed at all. *)
Theorem X4_batched_commit (disk : list Event) (ac : bool) (evs : list Event) :
  let s := run_appends evs (LineageStore_init disk ac) in
  (exists tail, rows s = durable s ++ tail
                /\ Z.of_nat (length tail) = _pending s)
  /\ (exists progress, durable s = disk ++ progress)
  /\ (ac = true -> _pending s < 1000)
  /\ (ac = false -> durable s = disk).
Proof.
  intros s.
  assert (Hinv : batch_inv disk ac s).
  { subst s. generalize (batch_inv_init disk ac).
    generalize (LineageStore_init disk ac) as s0.
    induction evs as [|e evs IH]; intros s0 H0; [done|].
    simpl. by apply IH, batch_inv_append. }
  by destruct Hinv as (_ & ? & ? & ? & ?).
Qed.

(** ** [ORDER BY idx] on any table *)

Lemma insert_by_idx_perm r t : sql_insert_by_idx r t ≡ₚ r :: t.
Proof.
  induction t as [|r' t IH]; [done|]. simpl.
  destruct (index r <=? index r'); [done|].
  rewrite IH. apply Permutation_swap.
Qed.

Lemma order_by_idx_perm t : sql_order_by_idx t ≡ₚ t.
Proof.
  induction t as [|r t IH]; [done|]. simpl. fold (sql_order_by_idx t).
  by rewrite insert_by_idx_perm, IH.
Qed.

Lemma insert_by_idx_sorted r t :
  StronglySorted idx_le t -> StronglySorted idx_le (sql_insert_by_idx r t).
Proof.
  induction 1 as [|r' t Hs IH Hall]; simpl; [repeat constructor|].
  destruct (Z.leb_spec (index r) (index r')).
  - constructor; [by constructor|]. constructor; [done|].
    eapply Forall_impl; [exact Hall|]. unfold idx_le. intros x Hx. lia.
  - constructor; [done|].
    rewrite insert_by_idx_perm. constructor; [unfold idx_le; lia|done].
Qed.

Lemma order_by_idx_sorted_le t : StronglySorted idx_le (sql_order_by_idx t).
Proof.
  induction t as [|r t IH]; [constructor|]. simpl.
  by apply insert_by_idx_sorted.
Qed.

Lemma filter_insert_by_idx (P : Event -> Prop) `{!forall x, Decision (P x)} r t :
  StronglySorted idx_le t ->
  filter P (sql_insert_by_idx r t)
  = if decide (P r) then sql_insert_by_idx r (filter P t) else filter P t.
Proof.
  induction 1 as [|r' t Hs IH Hall]; simpl.
  - rewrite filter_cons, filter_nil. by destruct (decide (P r)).
  - destruct (Z.leb_spec (index r) (index r')) as [Hle|Hgt].
    + rewrite (filter_cons P r). destruct (decide (P r)) as [Hr|Hr]; [|done].
      rewrite (filter_cons P r'). destruct (decide (P r')) as [Hr'|Hr'].
      * simpl. destruct (Z.leb_spec (index r) (index r')); [done|lia].
      * (* r goes before everything that is left *)
        assert (Hfront : forall l, Forall (idx_le r') l ->
                  sql_insert_by_idx r (filter P l) = r :: filter P l).
        { intros l Hl. destruct (filter P l) as [|x l'] eqn:E; [done|]. simpl.
          assert (Hx : x ∈ filter P l) by (rewrite E; by left).
          apply list_elem_of_filter in Hx as [_ Hx].
          eapply Forall_forall in Hl; [|exact Hx]. unfold idx_le in Hl.
          destruct (Z.leb_spec (index r) (index x)); [done|lia]. }
        by rewrite Hfront.
    + rewrite !(filter_cons P r'), IH.
      destruct (decide (P r')) as [Hr'|Hr'], (decide (P r)) as [Hr|Hr];
        try done.
      simpl. destruct (Z.leb_spec (index r) (index r')); [lia|done].
Qed.

Lemma filter_order_by_idx (P : Event -> Prop) `{!forall x, Decision (P x)} t :
  filter P (sql_order_by_idx t) = sql_order_by_idx (filter P t).
Proof.
  induction t as [|r t IH]; [done|]. simpl. fold (sql_order_by_idx t).
  rewrite filter_insert_by_idx by apply order_by_idx_sorted_le.
  rewrite filter_cons, IH. by destruct (decide (P r)).
Qed.

(** X5. The two readers on any table, dense or not: [all_events] returns
    the rows, each once, in ascending index order; [get_chain m] is the part
    of [all_events] that belongs to [m], so it holds exactly the events of
    [m], in ascending index order as well. *)
Theorem X5_readers (self : LineageStore) (m : string) :
  all_events self ≡ₚ rows self
  /\ StronglySorted (fun a b => index a <= index b) (all_events self)
  /\ get_chain self m = filter (fun e => model_id e = m) (all_events self)
  /\ StronglySorted (fun a b => index a <= index b) (get_chain self m)
  /\ (forall e, e ∈ get_chain self m <-> e ∈ rows self /\ model_id e = m).
Proof.
  unfold all_events, get_chain, sql_where_model.
  split; [apply order_by_idx_perm|]. split; [apply order_by_idx_sorted_le|].
  split; [by rewrite filter_order_by_idx|].
  split; [apply order_by_idx_sorted_le|].
  intros e. rewrite order_by_idx_perm, list_elem_of_filter. tauto.
Qed.

End BatchFacts.

(** * More about crypto_utils.py, the event record and run_demo.py *)
Section CryptoFacts.
Import CryptoUtils Lineage Models Stress Audit Demo Reputation.
Context `{CryptoLib}.

Lemma encode_utf8_app a b : encode_utf8 (a +:+ b) = encode_utf8 a ++ encode_utf8 b.
Proof.
  unfold encode_utf8, list_byte_of_string.
  induction a as [|ch a IH]; [done|]. simpl. by rewrite IH.
Qed.

(** X6. The hash input does not keep [prev_hash] and [payload] apart: text
    moved across the separator from the front of the payload to the end of
    [prev_hash] gives the same event hash, whatever the digest function. *)
Theorem X6_hash_payload_boundary (m : string) (i : Z) (prev p1 p2 : string)
    (t : Z) :
  hash_payload m i (prev +:+ "|" +:+ p1) (PStr p2) t
  = hash_payload m i prev (PStr (p1 +:+ "|" +:+ p2)) t.
Proof.
  unfold hash_payload, _to_bytes. f_equal.
  rewrite !encode_utf8_app, <- !app_assoc. done.
Qed.

(** X7. Signature checking reads an event through [canonical_bytes], which
    leaves out [payload] and [payload_hash]: replacing them changes neither
    the signature verdict nor anything [verify_event] of the demo returns,
    prints or does to the controller. *)
Theorem X7_signature_blind_to_payload (e : Event) (p ph : string)
    (vk : list byte) (phase : string) (verbose : bool) (d : Desk) :
  canonical_bytes (with_payload p ph e) = canonical_bytes e
  /\ verify_signature vk (canonical_bytes (with_payload p ph e))
                      (signature (with_payload p ph e))
     = verify_signature vk (canonical_bytes e) (signature e)
  /\ verify_event (with_payload p ph e) vk phase verbose d
     = verify_event e vk phase verbose d
  /\ payload_extended "_shadow" e
     = with_payload (payload e +:+ "_shadow") (payload_hash e) e.
Proof. done. Qed.

(** X8. [verify_signature] returns a boolean exactly when the signature is
    64 bytes long, and then the boolean is the answer of the signature
    primitive on signature + message; for any other length it raises. *)
Theorem X8_verify_signature_outcomes (vk msg sig : list byte) :
  (is_ok (verify_signature vk msg sig) = true <-> length sig = 64%nat)
  /\ (length sig = 64%nat ->
      verify_signature vk msg sig = Ok (crypto_sign_open vk (sig ++ msg)))
  /\ (length sig <> 64%nat ->
      verify_signature vk msg sig = Raise NaClValueError).
Proof.
  destruct (decide (length sig = 64%nat)) as [Hlen|Hlen].
  - rewrite (verify_signature_64 vk msg sig Hlen). simpl. tauto.
  - rewrite (verify_signature_other_length vk msg sig Hlen). simpl.
    split; [split; [done|by intros ?]|]. tauto.
Qed.

(** X9. Putting the raw pieces of an event through [rebuild_event] gives the
    event back exactly when it passes the commitment check and the hash
    check of full verification. *)
Theorem X9_rebuild_round_trip (e : Event) :
  rebuilt e = e <-> commit_check e = true /\ eventhash_check e = true.
Proof.
  unfold rebuilt, rebuild_event, commit_check, eventhash_check.
  rewrite andb_true_iff, !String.eqb_eq. split.
  - intros Heq.
    pose proof (f_equal payload_commit Heq) as Hc.
    pose proof (f_equal event_hash Heq) as Hh.
    pose proof (f_equal payload_hash Heq) as Hp. simpl in *.
    split; [done|]. split; [done|]. congruence.
  - intros (Hc & Hh & Hp). destruct e; simpl in *. congruence.
Qed.

End CryptoFacts.

(** * More about models.py *)
Section MadeFacts.
Import CryptoUtils Lineage Models Stress Audit Demo Emission Made Ledger.
Context `{CryptoLib}.

(** [make_event] builds what [rebuild_event] builds from the same pieces. *)
Lemma make_event_unfold s payload cheat now a :
  make_event s payload cheat now a
  = (set_last_ts (chosen_ts a s now) a,
     Ok (with_signature
           (sign_event (signed_bytes cheat (unsigned_event a s payload now)) (sk a))
           (unsigned_event a s payload now))).
Proof.
  cbv beta iota zeta delta [make_event bind gets _next_ts modify ret].
  fold (chosen_ts a s now). by destruct cheat.
Qed.

Lemma append_accepts e s :
  index e = next_index s -> prev_hash e = last_hash s (Lineage.model_id e) ->
  append e s = if sql_bindable e then (appended e s, Ok tt)
               else (s, Raise OverflowError).
Proof.
  intros Hi Hp. rewrite append_eq, Hi, Hp, Z.eqb_refl, String.eqb_refl.
  by destruct (sql_bindable e).
Qed.

(** X10. The event [make_event] returns against a store carries the
    store's next index and the model's last hash, whatever the store holds,
    whoever the agent is and whether it cheats or not, and it is what
    [rebuild_event] builds from its pieces; so [append] on this store never
    refuses it for its index or previous hash: it is inserted at the end of
    the table when index and timestamp fit the signed 64-bit range of the
    INTEGER columns, and otherwise the INSERT raises its overflow error and
    nothing is stored. *)
Theorem X10_made_event_is_accepted (s : LineageStore) (a : BaseModel)
    (payload : string) (cheat : bool) (now : Z) :
  exists e,
    snd (make_event s payload cheat now a) = Ok e
    /\ Lineage.model_id e = model_id a
    /\ index e = next_index s
    /\ prev_hash e = last_hash s (model_id a)
    /\ ts e = chosen_ts a s now
    /\ Lineage.payload e = payload
    /\ rebuilt e = e
    /\ (sqlite_int (next_index s) && sqlite_int (chosen_ts a s now) = true ->
        append e s = (appended e s, Ok tt)
        /\ rows (fst (append e s)) = rows s ++ [e])
    /\ (sqlite_int (next_index s) && sqlite_int (chosen_ts a s now) = false ->
        append e s = (s, Raise OverflowError)).
Proof.
  rewrite make_event_unfold. eexists. split; [reflexivity|].
  repeat (split; [reflexivity|]).
  rewrite append_accepts by reflexivity. unfold sql_bindable. cbn [index ts
    with_signature unsigned_event rebuild_event].
  split; intros ->; [|done]. split; [done|]. apply appended_rows.
Qed.

(** X11. Cheating changes the signature and nothing else: with and without
    [cheat] the agent ends in the same state and the two events agree in
    every field but the signature, which is over the canonical bytes of the
    event itself in one case and over their reversal in the other. *)
Theorem X11_cheat_changes_signature_only (s : LineageStore) (a : BaseModel)
    (payload : string) (now : Z) :
  exists e_honest e_cheat,
    make_event s payload false now a = (set_last_ts (ts e_honest) a, Ok e_honest)
    /\ make_event s payload true now a = (set_last_ts (ts e_honest) a, Ok e_cheat)
    /\ e_cheat = with_signature (signature e_cheat) e_honest
    /\ canonical_bytes e_cheat = canonical_bytes e_honest
    /\ signature e_honest = sign_event (canonical_bytes e_honest) (sk a)
    /\ signature e_cheat = sign_event (reverse (canonical_bytes e_honest)) (sk a).
Proof.
  rewrite !make_event_unfold.
  set (u := unsigned_event a s payload now).
  exists (with_signature (sign_event (signed_bytes false u) (sk a)) u),
         (with_signature (sign_event (signed_bytes true u) (sk a)) u).
  done.
Qed.

(** X12. For an event straight from [make_event], cheated or not, the
    commitment and hash checks pass, so full verification returns the
    signature verdict, counts no commitment or hash mismatch, and counts one
    invalid signature and one bad event exactly when that verdict is bad. *)
Theorem X12_made_event_verdict (s : LineageStore) (a : BaseModel)
    (payload : string) (cheat : bool) (now : Z) (vk : list byte) (w : World) :
  exists e,
    snd (make_event s payload cheat now a) = Ok e
    /\ commit_check e = true
    /\ eventhash_check e = true
    /\ forall sig_ok,
         verify_signature vk (canonical_bytes e) (signature e) = Ok sig_ok ->
         snd (verify_event_full e vk w) = Ok sig_ok
         /\ snd (fst (verify_event_full e vk w))
            = (if sig_ok then incr_total_events (snd w)
               else mark_bad (model_id a)
                      (incr_sig_invalid (incr_total_events (snd w))))
         /\ fst (fst (verify_event_full e vk w))
            = fst (Controller.update (model_id a) sig_ok (fst w)).
Proof.
  rewrite make_event_unfold. eexists. split; [reflexivity|].
  set (e := with_signature _ _).
  assert (Hc : commit_check e = true) by apply String.eqb_refl.
  assert (Hh : eventhash_check e = true).
  { unfold eventhash_check. simpl. by rewrite !String.eqb_refl. }
  split; [done|]. split; [done|].
  intros sig_ok Hsig. rewrite (verify_event_full_eq _ _ _ _ Hsig).
  cbn [fst snd]. rewrite Hc, Hh. unfold tally. by destruct sig_ok.
Qed.

(** X13. [SigCheatAttacker.make_event] does not look at its [cheat]
    argument: the draw against [cheat_rate] alone decides, and the result is
    the one new event object that [BaseModel.make_event] builds with that
    decision. *)
Theorem X13_sig_cheat_ignores_argument (cheat_rate draw : Q)
    (s : LineageStore) (payload : string) (cheat : bool) (now : Z)
    (a : BaseModel) (h : EventHeap) :
  exists e,
    make_event s payload (negb (Qle_bool cheat_rate draw)) now a
      = (set_last_ts (ts e) a, Ok e)
    /\ SigCheatAttacker_make_event cheat_rate draw s payload cheat now (a, h)
       = ((set_last_ts (ts e) a, h ++ [e]), Ok (length h))
    /\ SigCheatAttacker_make_event cheat_rate draw s payload (negb cheat) now (a, h)
       = SigCheatAttacker_make_event cheat_rate draw s payload cheat now (a, h).
Proof.
  rewrite make_event_unfold.
  set (u := unsigned_event a s payload now).
  exists (with_signature
            (sign_event (signed_bytes (negb (Qle_bool cheat_rate draw)) u) (sk a)) u).
  split; [reflexivity|]. split; [|reflexivity].
  unfold SigCheatAttacker_make_event, AttackerModel_make_event, bind, on_agent,
    on_heap, new_event, AttackerModel_mutate_event, ret.
  cbn [fst snd]. rewrite make_event_unfold. reflexivity.
Qed.

(** X14. A signature of the wrong length stops both verifiers with the
    exception of the signature check; the demo verifier has then done
    nothing, while full verification has already counted the event in
    [total_events] (and nothing else), without a verdict for the controller. *)
Theorem X14_malformed_signature_paths (e : Event) (vk : list byte)
    (phase : string) (verbose : bool) (d : Desk) (w : World) :
  length (signature e) <> 64%nat ->
  verify_event e vk phase verbose d = (d, Raise NaClValueError)
  /\ verify_event_full e vk w
     = ((fst w, incr_total_events (snd w)), Raise NaClValueError).
Proof.
  intros Hlen.
  pose proof (verify_signature_other_length vk (canonical_bytes e)
                (signature e) Hlen) as Hsig.
  split; [|by apply verify_event_full_raise].
  unfold verify_event, bind at 1, lift_result. by rewrite Hsig.
Qed.

End MadeFacts.

Section MadeExamples.
Import CryptoUtils Lineage Models Stress Audit Demo Scenario.

Lemma X14_malformed_signature_paths_witness :
  @verify_event_full sample_lib (with_payload "p" "h" (Made.with_signature [] sample_event))
     [] fresh_world
  = ((fst fresh_world, incr_total_events (snd fresh_world)), Raise NaClValueError).
Proof.
  refine (proj2 (@X14_malformed_signature_paths sample_lib
                   (with_payload "p" "h" (Made.with_signature [] sample_event))
                   [] "" true (fst fresh_world, []) fresh_world _)).
  simpl. lia.
Defined.

End MadeExamples.

(** * More about controller.py *)
Section ReplayFacts.
Import Controller Reputation Replay.

Lemma standing_get_same m self : standing (fst (get m self)) m = standing self m.
Proof. unfold standing at 1. by rewrite peek_get_same. Qed.

Lemma standing_get_other m m' self :
  unaliased self -> m <> m' -> standing (fst (get m self)) m' = standing self m'.
Proof.
  intros Hu Hne. unfold standing. rewrite get_eq. cbn [fst].
  by rewrite peek_ensure_other.
Qed.

Lemma standing_update_other m m' valid self :
  unaliased self -> m <> m' ->
  standing (fst (update m valid self)) m' = standing self m'.
Proof. intros Hu Hne. unfold standing. by rewrite peek_update_other. Qed.

Lemma verdicts_of_update m m' valid cs :
  verdicts_of m (CallUpdate m' valid :: cs)
  = if decide (m' = m) then valid :: verdicts_of m cs else verdicts_of m cs.
Proof. unfold verdicts_of. simpl. by destruct (decide (m' = m)). Qed.

Lemma verdicts_of_get m m' cs :
  verdicts_of m (CallGet m' :: cs) = verdicts_of m cs.
Proof. done. Qed.

Lemma standing_run_calls cs m self :
  unaliased self ->
  standing (run_calls cs self) m = replay_from (standing self m) (verdicts_of m cs).
Proof.
  revert self. induction cs as [|c cs IH]; intros self Hu; [done|].
  change (run_calls (c :: cs) self) with (run_calls cs (run_call c self)).
  rewrite IH by by apply run_call_unaliased.
  destruct c as [m' valid|m'].
  - rewrite verdicts_of_update. cbn [run_call].
    destruct (decide (m' = m)) as [->|Hne].
    + change (replay_from (standing self m) (valid :: verdicts_of m cs))
        with (replay_from (verdict_step valid (standing self m)) (verdicts_of m cs)).
      by rewrite standing_after_update.
    + by rewrite standing_update_other.
  - rewrite verdicts_of_get. cbn [run_call].
    destruct (decide (m' = m)) as [->|Hne].
    + by rewrite standing_get_same.
    + by rewrite standing_get_other.
Qed.

(** X15. The controller is a reducer per model: after any series of
    [update] and [get] calls on a fresh controller, what [get] returns for a
    model id is the default (1000, 500) put through the verdicts that were
    given for this id, in their order; verdicts for other ids and calls of
    [get] have no part in it. *)
Theorem X15_per_model_replay (cs : list Call) (m : string) :
  snd (get m (run_calls cs Controller_init))
  = Ok (replay_from (1000, 500) (verdicts_of m cs)).
Proof.
  rewrite get_returns_standing, standing_run_calls by apply init_unaliased.
  done.
Qed.

Lemma replay_good k w t :
  w <= 1000 -> 50 <= t ->
  replay_from (w, t) (replicate k true)
  = (Z.min 1000 (w + 30 * Z.of_nat k), Z.max 50 (t - 8 * Z.of_nat k)).
Proof.
  revert w t. induction k as [|k IH]; intros w t Hw Ht.
  - simpl. f_equal; lia.
  - change (replay_from (w, t) (replicate (S k) true))
      with (replay_from (verdict_step true (w, t)) (replicate k true)).
    unfold verdict_step. cbn [fst snd]. rewrite IH by lia. f_equal; lia.
Qed.

Lemma replay_bad k w t :
  0 <= w -> t <= 500 ->
  replay_from (w, t) (replicate k false)
  = (Z.max 0 (w - 100 * Z.of_nat k), Z.min 500 (t + 30 * Z.of_nat k)).
Proof.
  revert w t. induction k as [|k IH]; intros w t Hw Ht.
  - simpl. f_equal; lia.
  - change (replay_from (w, t) (replicate (S k) false))
      with (replay_from (verdict_step false (w, t)) (replicate k false)).
    unfold verdict_step. cbn [fst snd]. rewrite IH by lia. f_equal; lia.
Qed.

Lemma verdicts_of_repeat m valid k :
  verdicts_of m (replicate k (CallUpdate m valid)) = replicate k valid.
Proof.
  induction k as [|k IH]; [done|]. cbn [replicate].
  by rewrite verdicts_of_update, decide_True, IH.
Qed.

(** X16. Runs of equal verdicts.  From a pair (w, t) the controller has
    reached, k good verdicts in a row lead to
    (min(1000, w + 30k), max(50, t - 8k)) and k bad ones to
    (max(0, w - 100k), min(500, t + 30k)); so 34 good verdicts always
    restore the full weight and 10 bad ones always take it all. *)
Theorem X16_runs_of_verdicts (cs : list Call) (m : string) (k : nat) :
  let c := run_calls cs Controller_init in
  let w := fst (standing c m) in
  let t := snd (standing c m) in
  standing (run_calls (replicate k (CallUpdate m true)) c) m
  = (Z.min 1000 (w + 30 * Z.of_nat k), Z.max 50 (t - 8 * Z.of_nat k))
  /\ standing (run_calls (replicate k (CallUpdate m false)) c) m
     = (Z.max 0 (w - 100 * Z.of_nat k), Z.min 500 (t + 30 * Z.of_nat k))
  /\ ((34 <= k)%nat ->
      fst (standing (run_calls (replicate k (CallUpdate m true)) c) m) = 1000)
  /\ ((10 <= k)%nat ->
      fst (standing (run_calls (replicate k (CallUpdate m false)) c) m) = 0).
Proof.
  intros c w t.
  assert (Hu : unaliased c) by apply run_calls_unaliased, init_unaliased.
  assert (Hr : 0 <= w <= 1000 /\ 50 <= t <= 500).
  { apply (standing_in_range m c); [apply run_calls_bounded, init_bounded|].
    subst w t. by destruct (standing c m). }
  rewrite !standing_run_calls, !verdicts_of_repeat by done.
  replace (standing c m) with (w, t) by (subst w t; by destruct (standing c m)).
  rewrite replay_good, replay_bad by lia.
  split; [done|]. split; [done|]. cbn [fst]. split; intros Hk; lia.
Qed.

(** X17. Observing twice is observing once: a second [get] for the same id
    returns the same pair and leaves the controller as the first left it; on
    an id the controller knows, [get] changes nothing at all; and neither
    [get] nor [update] ever raises, on any controller. *)
Theorem X17_get_settles (self : Controller) (m : string) (valid : bool) :
  get m (fst (get m self)) = (fst (get m self), snd (get m self))
  /\ (forall l, state self !! m = Some l ->
        get m self = (self, Ok (weight (heap self l), theta (heap self l))))
  /\ is_ok (snd (get m self)) = true
  /\ snd (update m valid self) = Ok tt.
Proof.
  assert (Hknown : forall c l, state c !! m = Some l ->
            get m c = (c, Ok (weight (heap c l), theta (heap c l)))).
  { intros c l Hl. rewrite get_eq. unfold addr_of.
    by rewrite (ensure_known m c l Hl), Hl. }
  split; [|split; [apply Hknown|split]].
  - pose proof (ensure_binds m self) as Hb.
    rewrite (Hknown (fst (get m self)) (addr_of self m))
      by (rewrite get_eq; exact Hb).
    f_equal. rewrite (get_eq m self). reflexivity.
  - by rewrite get_returns_standing.
  - by rewrite update_eq.
Qed.

End ReplayFacts.

(** * More about run_stress.py: the counters *)
Section StatsFacts.
Import CryptoUtils Lineage Models Stress Audit Bench.
Context `{CryptoLib}.

Lemma tally_total_bump (t : gmap string Z) (m : string) :
  tally_total (<[m := default 0 (t !! m) + 1]> t) = tally_total t + 1.
Proof.
  unfold tally_total.
  destruct (t !! m) as [v|] eqn:E; simpl.
  - rewrite <- (insert_delete_eq t m (v + 1)).
    rewrite map_fold_insert_L.
    + rewrite (map_fold_delete_L _ 0 m v t); [lia| |done].
      intros. lia.
    + intros. lia.
    + apply lookup_delete_eq.
  - rewrite map_fold_insert_L; [lia| |done]. intros. lia.
Qed.

Lemma stats_inv_init : stats_inv AnomalyStats_init.
Proof.
  unfold stats_inv. simpl. repeat (split; [lia|]).
  split; [done|]. intros m v Hv. by rewrite lookup_empty in Hv.
Qed.

Lemma stats_inv_counted st : stats_inv st -> stats_inv (incr_total_events st).
Proof. unfold stats_inv. simpl. intros (?&?&?&?&?&?&?). repeat split; try lia; done. Qed.

Lemma stats_inv_tally so co ho m st :
  stats_inv st -> stats_inv (tally so co ho m st).
Proof.
  unfold stats_inv. intros (Hs & Hc & Hh & Hsum & Htot & Hmap & Hpos).
  unfold tally. destruct so, co, ho; simpl;
    rewrite ?tally_total_bump;
    (repeat split; try lia;
     try (intros m' v Hv;
          destruct (decide (m = m')) as [<-|Hne];
          [ rewrite lookup_insert_eq in Hv; inversion Hv; subst;
            destruct (per_model_bad st !! m) as [v0|] eqn:E; simpl;
            [specialize (Hpos m v0 E); lia|lia]
          | rewrite lookup_insert_ne in Hv by done; by eapply Hpos ])).
  all: by eapply Hpos.
Qed.

Lemma verify_event_full_stats ev vk w :
  exists so co ho,
    snd (fst (verify_event_full ev vk w)) = incr_total_events (snd w)
    \/ snd (fst (verify_event_full ev vk w))
       = tally so co ho (Lineage.model_id ev) (snd w).
Proof.
  destruct (verify_signature vk (canonical_bytes ev) (signature ev))
    as [sig_ok|e] eqn:Hsig.
  - exists sig_ok, (commit_check ev), (eventhash_check ev). right.
    by rewrite (verify_event_full_eq _ _ _ _ Hsig).
  - exists true, true, true. left.
    by rewrite (verify_event_full_raise _ _ _ _ Hsig).
Qed.

Lemma tally_counts so co ho m st :
  total_events (tally so co ho m st) = total_events st + 1
  /\ honest_events (tally so co ho m st) = honest_events st
  /\ attacker_events (tally so co ho m st) = attacker_events st.
Proof. unfold tally. by destruct so, co, ho. Qed.

(** X18. The counters after any series of verifications on fresh
    statistics: every call is counted in [total_events], even one that
    stopped with an exception; each mismatch counter is at most
    [bad_events], which is at most their sum and at most [total_events];
    the per-model tallies add up to [bad_events] and none of them is 0; the
    honest and attacker counters, which the main loop keeps, are not
    touched. *)
Theorem X18_counters (calls : list (Event * list byte))
    (ctl : Controller.Controller) :
  let st := snd (run_verifications calls (ctl, AnomalyStats_init)) in
  total_events st = Z.of_nat (length calls)
  /\ honest_events st = 0 /\ attacker_events st = 0
  /\ 0 <= sig_invalid st <= bad_events st
  /\ 0 <= commit_mismatch st <= bad_events st
  /\ 0 <= eventhash_mismatch st <= bad_events st
  /\ bad_events st <= sig_invalid st + commit_mismatch st + eventhash_mismatch st
  /\ bad_events st <= total_events st
  /\ tally_total (per_model_bad st) = bad_events st
  /\ (forall m v, per_model_bad st !! m = Some v -> 1 <= v).
Proof.
  intros st.
  assert (Hgen : forall w,
    stats_inv (snd w) ->
    stats_inv (snd (run_verifications calls w))
    /\ total_events (snd (run_verifications calls w))
       = total_events (snd w) + Z.of_nat (length calls)
    /\ honest_events (snd (run_verifications calls w)) = honest_events (snd w)
    /\ attacker_events (snd (run_verifications calls w)) = attacker_events (snd w)).
  { induction calls as [|[ev vk] calls IH]; intros w Hw.
    - simpl. split; [done|]. split; [lia|done].
    - change (run_verifications ((ev, vk) :: calls) w)
        with (run_verifications calls (fst (verify_event_full ev vk w))).
      destruct (verify_event_full_stats ev vk w) as (so & co & ho & [Hst|Hst]).
      + destruct (IH (fst (verify_event_full ev vk w))) as (Hi & Ht & Hh & Ha).
        { rewrite Hst. by apply stats_inv_counted. }
        split; [done|]. rewrite Ht, Hh, Ha, Hst. simpl length.
        split; [simpl; lia|done].
      + destruct (IH (fst (verify_event_full ev vk w))) as (Hi & Ht & Hh & Ha).
        { rewrite Hst. by apply stats_inv_tally. }
        split; [done|]. rewrite Ht, Hh, Ha, Hst.
        destruct (tally_counts so co ho (Lineage.model_id ev) (snd w))
          as (-> & -> & ->).
        simpl length. split; [lia|done]. }
  destruct (Hgen (ctl, AnomalyStats_init) stats_inv_init)
    as ((Hs & Hc & He & Hsum & Hle & Hmap & Hpos) & Ht & Hh & Ha).
  subst st. cbn [snd] in Ht, Hh, Ha.
  change (total_events AnomalyStats_init) with 0 in Ht.
  split; [lia|]. split; [exact Hh|]. split; [exact Ha|].
  split; [exact Hs|]. split; [exact Hc|]. split; [exact He|].
  split; [exact Hsum|]. split; [exact Hle|]. split; [exact Hmap|exact Hpos].
Qed.

End StatsFacts.

(** * More about run_stress.py: a round of the main loop *)
Section RoundFacts.
Import CryptoUtils Lineage Models Stress Audit Ledger Emission Made Bench.
Context `{CryptoLib}.

Lemma appended_last_hash e s :
  index e = next_index s ->
  last_hash (appended e s) (Lineage.model_id e) = event_hash e.
Proof.
  intros Hi. unfold last_hash. rewrite appended_rows.
  unfold sql_where_model. rewrite filter_app, filter_cons, filter_nil.
  rewrite decide_True by done. rewrite limit_1_snoc; [done|].
  intros r Hr. apply list_elem_of_filter in Hr as [_ Hr].
  rewrite Hi. by apply next_index_above.
Qed.

Lemma CommitDrift_as_alter rate draw mode ev (h : EventHeap) :
  CommitDriftAttacker_mutate_event rate draw mode ev h
  = (alter (if Qle_bool rate draw then id else drifted mode) ev h, Ok ev).
Proof.
  destruct (Qle_bool rate draw) eqn:E.
  - rewrite CommitDrift_eq, E. by rewrite list_alter_id.
  - by apply CommitDrift_fires.
Qed.

Lemma SlowDrip_as_alter rate draw ev (h : EventHeap) :
  SlowDripAttacker_mutate_event rate draw ev h
  = (alter (if Qle_bool rate draw then id else payload_extended "_shadow") ev h,
     Ok ev).
Proof.
  destruct (Qle_bool rate draw) eqn:E.
  - rewrite SlowDrip_eq, E. by rewrite list_alter_id.
  - by apply SlowDrip_fires.
Qed.

(** A round with a hook that rewrites the object by [f], where [f] keeps
    the fields the store looks at. *)
Lemma attacker_round_eq (hook : nat -> M EventHeap nat) (f : Event -> Event)
    payload now (b : Arena) :
  (forall ev (h : EventHeap), hook ev h = (alter f ev h, Ok ev)) ->
  (forall e, Lineage.model_id (f e) = Lineage.model_id e
             /\ index (f e) = index e /\ prev_hash (f e) = prev_hash e
             /\ ts (f e) = ts e) ->
  exists e,
    make_event (store b) payload false now (agent b)
      = (set_last_ts (ts e) (agent b), Ok e)
    /\ attacker_round hook payload now b
       = if sql_bindable e
         then ({| agent := set_last_ts (ts e) (agent b);
                  events := events b ++ [f e];
                  store := appended (f e) (store b);
                  world := fst (verify_event_full (f e) (vk (agent b)) (world b)) |},
               snd (verify_event_full (f e) (vk (agent b)) (world b)))
         else ({| agent := set_last_ts (ts e) (agent b);
                  events := events b ++ [f e];
                  store := store b;
                  world := world b |}, Raise OverflowError).
Proof.
  intros Hhook Hkeep.
  destruct (attacker_event_rewritten hook f (store b) payload false now
              (agent b) (events b) Hhook) as (e & He & Hmk).
  destruct (make_event_eq (store b) payload false now (agent b))
    as (e' & He' & Hts & Hm & Hi & Hp).
  assert (e' = e) as -> by congruence.
  exists e. rewrite He', Hts. split; [done|].
  rewrite He' in Hmk. cbn [fst] in Hmk.
  destruct (Hkeep e) as (Hkm & Hki & Hkp & Hkt).
  assert (Hfit : sql_bindable (f e) = sql_bindable e).
  { unfold sql_bindable. by rewrite Hki, Hkt. }
  unfold attacker_round.
  unfold bind at 1, gets at 1. unfold bind at 1, on_maker. rewrite Hmk.
  cbn [fst snd agent events store world].
  unfold bind at 1, fields_of at 1. cbn [events].
  rewrite lookup_app_r, Nat.sub_diag by done. cbn [lookup list_lookup].
  unfold bind at 1, on_store at 1. cbn [store].
  rewrite append_accepts by (rewrite ?Hki, ?Hkp, ?Hkm, ?Hm; done).
  rewrite Hfit. destruct (sql_bindable e); [|done].
  cbn [fst snd agent events store world].
  unfold bind at 1, fields_of at 1. cbn [events].
  rewrite lookup_app_r, Nat.sub_diag by done. cbn [lookup list_lookup].
  unfold bind at 1, gets at 1. cbn [agent vk set_last_ts].
  unfold on_world. cbn [world].
  by destruct (verify_event_full (f e) (vk (agent b)) (world b)).
Qed.

(** What [verify_event_full] can end with. *)
Lemma verify_event_full_outcomes ev key w :
  (exists ok, snd (verify_event_full ev key w) = Ok ok)
  \/ snd (verify_event_full ev key w) = Raise NaClValueError.
Proof.
  destruct (decide (length (signature ev) = crypto_sign_BYTES)) as [Hlen|Hlen].
  - left. eexists.
    by rewrite (verify_event_full_eq _ _ _ _
                  (verify_signature_64 key (canonical_bytes ev) (signature ev) Hlen)).
  - right.
    by rewrite (verify_event_full_raise _ _ _ _
                  (verify_signature_other_length key (canonical_bytes ev)
                     (signature ev) Hlen)).
Qed.

Lemma attacker_round_outcome (hook : nat -> M EventHeap nat) (f : Event -> Event)
    payload now (b : Arena) e :
  (forall ev (h : EventHeap), hook ev h = (alter f ev h, Ok ev)) ->
  (forall e, Lineage.model_id (f e) = Lineage.model_id e
             /\ index (f e) = index e /\ prev_hash (f e) = prev_hash e
             /\ ts (f e) = ts e) ->
  make_event (store b) payload false now (agent b)
    = (set_last_ts (ts e) (agent b), Ok e) ->
  round_outcome b e (f e) (attacker_round hook payload now b).
Proof.
  intros Hhook Hkeep He.
  destruct (attacker_round_eq hook f payload now b Hhook Hkeep) as (e' & He' & Hr).
  assert (e' = e) as -> by congruence.
  destruct (make_event_eq (store b) payload false now (agent b))
    as (e0 & He0 & _ & Hm & Hi & Hp).
  assert (e0 = e) as -> by congruence.
  destruct (Hkeep e) as (Hkm & Hki & Hkp & Hkt).
  rewrite Hr. unfold round_outcome. destruct (sql_bindable e); cbn [fst snd events store world].
  - split; [done|].
    destruct (verify_event_full_outcomes (f e) (vk (agent b)) (world b))
      as [[ok ->]| ->].
    + split; [done|]. split; [done|]. split.
      * intros Hinv. rewrite appended_rows. apply ledger_inv_snoc; [done|congruence|].
        rewrite Hkm, Hkp, Hm. done.
      * split; [|done]. intros _. split; [done|]. split; [apply appended_rows|].
        rewrite <- Hm, <- Hkm. apply appended_last_hash. congruence.
    + split; [done|]. split; [done|]. split.
      * intros Hinv. rewrite appended_rows. apply ledger_inv_snoc; [done|congruence|].
        rewrite Hkm, Hkp, Hm. done.
      * split; [|done]. intros _. split; [done|]. split; [apply appended_rows|].
        rewrite <- Hm, <- Hkm. apply appended_last_hash. congruence.
  - split; [done|]. split; [done|]. split; [done|]. split; [done|].
    split; [done|]. done.
Qed.

(** X19. A round of the stress loop with a commit-drift or slow-drip
    attacker is never stopped by the index check or the prev-hash check of
    [append]: the one event object of the round, rewritten or not, is
    inserted as it then is whenever index and timestamp fit the signed
    64-bit range, a table in shape stays in shape, and the hash the object
    carries becomes the last hash of the model, which is the sentinel when
    the hash drift has fired; when index or timestamp is out of that range
    the round ends at [append] with the overflow error of the INSERT, with
    nothing stored and nothing verified. *)
Theorem X19_attacker_round (rate draw : Q) (mode : DriftMode)
    (payload : string) (now : Z) (b : Arena) :
  exists e,
    make_event (store b) payload false now (agent b)
      = (set_last_ts (ts e) (agent b), Ok e)
    /\ sql_bindable e
       = sqlite_int (next_index (store b))
         && sqlite_int (chosen_ts (agent b) (store b) now)
    /\ round_outcome b e (if Qle_bool rate draw then e else drifted mode e)
         (attacker_round (CommitDriftAttacker_mutate_event rate draw mode)
            payload now b)
    /\ round_outcome b e
         (if Qle_bool rate draw then e else payload_extended "_shadow" e)
         (attacker_round (SlowDripAttacker_mutate_event rate draw) payload now b)
    /\ (sql_bindable e = true -> Qle_bool rate draw = false ->
        touches_hash mode = true ->
        last_hash (store (fst (attacker_round
                                 (CommitDriftAttacker_mutate_event rate draw mode)
                                 payload now b)))
                  (model_id (agent b))
        = str_repeat "BEEF" 16)
    /\ (sql_bindable e = true ->
        last_hash (store (fst (attacker_round
                                 (SlowDripAttacker_mutate_event rate draw)
                                 payload now b)))
                  (model_id (agent b))
        = event_hash e).
Proof.
  destruct (make_event_eq (store b) payload false now (agent b))
    as (e & He & Hts & Hm & Hi & Hp).
  rewrite <- Hts in He.
  assert (Hd := attacker_round_outcome
            (CommitDriftAttacker_mutate_event rate draw mode)
            (if Qle_bool rate draw then id else drifted mode)
            payload now b e).
  assert (Hs := attacker_round_outcome
            (SlowDripAttacker_mutate_event rate draw)
            (if Qle_bool rate draw then id else payload_extended "_shadow")
            payload now b e).
  exists e. split; [done|].
  split; [unfold sql_bindable; by rewrite Hi, Hts|].
  assert (Hd' : round_outcome b e (if Qle_bool rate draw then e else drifted mode e)
                  (attacker_round (CommitDriftAttacker_mutate_event rate draw mode)
                     payload now b)).
  { replace (if Qle_bool rate draw then e else drifted mode e)
      with ((if Qle_bool rate draw then id else drifted mode) e)
      by by destruct (Qle_bool rate draw).
    apply Hd; [intros ev h; apply CommitDrift_as_alter| |done].
    intros e0. by destruct (Qle_bool rate draw). }
  assert (Hs' : round_outcome b e
                  (if Qle_bool rate draw then e else payload_extended "_shadow" e)
                  (attacker_round (SlowDripAttacker_mutate_event rate draw)
                     payload now b)).
  { replace (if Qle_bool rate draw then e else payload_extended "_shadow" e)
      with ((if Qle_bool rate draw then id else payload_extended "_shadow") e)
      by by destruct (Qle_bool rate draw).
    apply Hs; [intros ev h; apply SlowDrip_as_alter| |done].
    intros e0. by destruct (Qle_bool rate draw). }
  split; [done|]. split; [done|]. split.
  - intros Hfit Hf Ht.
    destruct Hd' as (_ & _ & _ & _ & Hin & _).
    destruct (Hin Hfit) as (_ & _ & ->). rewrite Hf. simpl. by rewrite Ht.
  - intros Hfit.
    destruct Hs' as (_ & _ & _ & _ & Hin & _).
    destruct (Hin Hfit) as (_ & _ & ->). by destruct (Qle_bool rate draw).
Qed.

End RoundFacts.

(** * More about the drivers: sessions and reloads *)
Section ReloadFacts.
Import CryptoUtils Lineage Models Stress Audit Ledger Reputation Replay Batch Bench.
Context `{CryptoLib}.

Lemma quiet_appends disk evs s :
  durable s = disk -> 0 <= _pending s ->
  _pending s + Z.of_nat (length evs) < 1000 ->
  durable (run_appends evs s) = disk.
Proof.
  revert s. induction evs as [|e evs IH]; intros s Hd H0 Hlt; [done|].
  change (run_appends (e :: evs) s) with (run_appends evs (fst (append e s))).
  simpl length in Hlt.
  assert (Hstep : durable (fst (append e s)) = disk
                  /\ 0 <= _pending (fst (append e s)) <= _pending s + 1).
  { rewrite append_eq.
    destruct (negb (index e =? next_index s)); [cbn [fst]; split; [done|lia]|].
    destruct (negb (String.eqb (prev_hash e) (last_hash s (Lineage.model_id e))));
      [cbn [fst]; split; [done|lia]|].
    destruct (negb (sql_bindable e)); [cbn [fst]; split; [done|lia]|].
    cbn [fst]. unfold appended, commit_policy.
    cbn [autocommit _pending set_pending set_rows].
    destruct (Z.leb_spec 1000 (_pending s + 1)); [lia|].
    rewrite andb_false_r. cbn [durable _pending set_pending set_rows].
    split; [done|lia]. }
  destruct Hstep as [Hd' Hp']. apply IH; [done|lia|lia].
Qed.

(** X20. A session of fewer than 1000 appends commits nothing by itself:
    whatever the flag, the committed table is still what was on disk when
    the store was opened, so a second store opened on the file reads no
    event of the session. *)
Theorem X20_short_sessions_commit_nothing (disk : list Event) (ac : bool)
    (evs : list Event) :
  (length evs < 1000)%nat ->
  durable (run_appends evs (LineageStore_init disk ac)) = disk
  /\ forall ac',
       all_events (LineageStore_init
                     (durable (run_appends evs (LineageStore_init disk ac))) ac')
       = all_events (LineageStore_init disk ac').
Proof.
  intros Hlen.
  assert (Hd : durable (run_appends evs (LineageStore_init disk ac)) = disk).
  { apply quiet_appends; [done|simpl; lia|simpl; lia]. }
  split; [done|]. intros ac'. by rewrite Hd.
Qed.

Lemma X20_short_sessions_commit_nothing_witness :
  durable (run_appends [sample_event] (LineageStore_init [] true)) = [].
Proof.
  refine (proj1 (X20_short_sessions_commit_nothing [] true [sample_event] _)).
  simpl. lia.
Defined.

(** The controller after a run of the verifier is the controller after the
    updates the run has made. *)
Lemma run_verifications_controller calls w :
  fst (run_verifications calls w) = run_calls (omap update_of calls) (fst w).
Proof.
  revert w. induction calls as [|[ev vk] calls IH]; intros w; [done|].
  change (run_verifications ((ev, vk) :: calls) w)
    with (run_verifications calls (fst (verify_event_full ev vk w))).
  rewrite IH. cbn [omap list_omap]. unfold update_of at 2. cbn [fst snd].
  destruct (verify_signature vk (canonical_bytes ev) (signature ev))
    as [sig_ok|e] eqn:Hsig.
  - by rewrite (verify_event_full_eq _ _ _ _ Hsig).
  - by rewrite (verify_event_full_raise _ _ _ _ Hsig).
Qed.

Lemma verdicts_of_chain key_of m (l : list Event) :
  verdicts_of m (omap update_of
                   ((fun e => (e, key_of (Lineage.model_id e)))
                      <$> filter (fun e => Lineage.model_id e = m) l))
  = verdicts_of m (omap update_of
                     ((fun e => (e, key_of (Lineage.model_id e))) <$> l)).
Proof.
  induction l as [|e l IH]; [done|].
  rewrite filter_cons. destruct (decide (Lineage.model_id e = m)) as [Hm|Hm].
  - rewrite !fmap_cons. cbn [omap list_omap].
    destruct (update_of (e, key_of (Lineage.model_id e))) as [c|]; [|exact IH].
    destruct c as [m' valid|m']; [|by rewrite !verdicts_of_get].
    rewrite !verdicts_of_update. by rewrite IH.
  - rewrite fmap_cons. cbn [omap list_omap]. rewrite IH.
    unfold update_of. cbn [fst snd].
    destruct (verify_signature _ _ _); [|done].
    rewrite verdicts_of_update. by rewrite decide_False.
Qed.

(** The loop runs to its end exactly when every signature it meets has the
    64 bytes of a signature, and then it has made every call. *)
Lemma verify_loop_ok key_of l w :
  Forall (fun e => length (signature e) = crypto_sign_BYTES) l ->
  verify_loop key_of l w
  = (run_verifications ((fun e => (e, key_of (Lineage.model_id e))) <$> l) w,
     Ok tt).
Proof.
  intros Hall. revert w. induction Hall as [|e l He Hall IH]; intros w; [done|].
  pose proof (verify_event_full_eq e (key_of (Lineage.model_id e)) w _
                (verify_signature_64 (key_of (Lineage.model_id e))
                   (canonical_bytes e) (signature e) He)) as Hv.
  cbn zeta in Hv.
  cbn [verify_loop]. unfold bind. rewrite fmap_cons.
  unfold run_verifications. cbn [foldl fst snd]. rewrite Hv. cbn [fst snd].
  by rewrite IH.
Qed.

Lemma verify_loop_ended key_of l w :
  snd (verify_loop key_of l w) = Ok tt ->
  Forall (fun e => length (signature e) = crypto_sign_BYTES) l.
Proof.
  revert w. induction l as [|e l IH]; intros w Hok; [constructor|].
  cbn [verify_loop] in Hok. unfold bind in Hok.
  destruct (decide (length (signature e) = crypto_sign_BYTES)) as [He|He].
  - constructor; [done|].
    pose proof (verify_event_full_eq e (key_of (Lineage.model_id e)) w _
                  (verify_signature_64 (key_of (Lineage.model_id e))
                     (canonical_bytes e) (signature e) He)) as Hv.
    cbn zeta in Hv. rewrite Hv in Hok. by eapply IH.
  - rewrite (verify_event_full_raise _ _ _ _
               (verify_signature_other_length (key_of (Lineage.model_id e))
                  (canonical_bytes e) (signature e) He)) in Hok.
    discriminate Hok.
Qed.

(** X21. Reloading by chain.  When the verification of every event of the
    store in index order, on a fresh controller, runs to its end, so does
    the verification of the chain of one model read back from the store,
    and it leaves this model where the other leaves it: the events of the
    other models have no part in a model's pair.  A loop ends early when a
    stored signature does not have 64 bytes, and it runs to its end exactly
    when no signature it meets is of that kind. *)
Theorem X21_reload_by_chain (key_of : string -> list byte)
    (self : LineageStore) (m : string) :
  snd (verify_all key_of (all_events self)) = Ok tt ->
  snd (verify_all key_of (get_chain self m)) = Ok tt
  /\ snd (Controller.get m (fst (fst (verify_all key_of (get_chain self m)))))
     = snd (Controller.get m (fst (fst (verify_all key_of (all_events self)))))
  /\ Forall (fun e => length (signature e) = crypto_sign_BYTES) (rows self).
Proof.
  intros Hok. apply verify_loop_ended in Hok.
  assert (Hchain : Forall (fun e => length (signature e) = crypto_sign_BYTES)
                     (get_chain self m)).
  { rewrite Forall_forall in Hok |- *. intros e He. apply Hok.
    unfold get_chain, all_events, sql_where_model in *.
    rewrite <- filter_order_by_idx in He.
    by apply list_elem_of_filter in He as [_ He]. }
  unfold verify_all. rewrite (verify_loop_ok _ _ _ Hok), (verify_loop_ok _ _ _ Hchain).
  cbn [fst snd]. split; [done|]. split.
  - rewrite !get_returns_standing, !run_verifications_controller.
    cbn [fst]. rewrite !standing_run_calls by apply init_unaliased.
    f_equal. f_equal.
    unfold get_chain, all_events, sql_where_model.
    rewrite <- filter_order_by_idx. apply verdicts_of_chain.
  - unfold all_events in Hok. by rewrite order_by_idx_perm in Hok.
Qed.

End ReloadFacts.

Section ReloadExamples.
Import CryptoUtils Lineage Models Stress Bench Scenario.

Lemma X21_reload_by_chain_witness :
  snd (@verify_all sample_lib
         (fun m => if String.eqb m "A" then snd keys_A else snd keys_B)
         (get_chain interleaved "A")) = Ok tt
  /\ snd (Controller.get "A"
            (fst (fst (@verify_all sample_lib
                         (fun m => if String.eqb m "A" then snd keys_A else snd keys_B)
                         (get_chain interleaved "A")))))
     = snd (Controller.get "A"
              (fst (fst (@verify_all sample_lib
                           (fun m => if String.eqb m "A" then snd keys_A else snd keys_B)
                           (all_events interleaved)))))
  /\ Forall (fun e => length (signature e) = crypto_sign_BYTES) (rows interleaved).
Proof.
  apply (@X21_reload_by_chain sample_lib
           (fun m => if String.eqb m "A" then snd keys_A else snd keys_B)
           interleaved "A").
  vm_compute. reflexivity.
Defined.

End ReloadExamples.

(** * More about controller.py: the summary *)
Section SummaryFacts.
Import Controller Reputation Summary.

Lemma by_id_total : Total by_id.
Proof. intros a b. unfold by_id. apply total, _. Qed.

(** X22. [summary] lists the model ids the controller knows, each once and
    in ascending order, each with the pair recorded for it, and nothing
    else; in particular it does not add the ids it is not asked about, as
    [get] would. *)
Theorem X22_summary_lists_state (self : Controller) :
  (forall m w t, (m, w, t) ∈ summary self <-> peek self m = Some (w, t))
  /\ NoDup ((fun l => fst (fst l)) <$> summary self)
  /\ Sorted (fun a b => String.le (fst (fst a)) (fst (fst b))) (summary self)
  /\ length (summary self) = size (state self).
Proof.
  unfold summary. split; [|split; [|split]].
  - intros m w t. rewrite list_elem_of_fmap. unfold peek. split.
    + intros ([m' l] & [= -> -> ->] & Hin).
      rewrite merge_sort_Permutation in Hin.
      apply elem_of_map_to_list in Hin. cbn [fst snd]. by rewrite Hin.
    + destruct (state self !! m) as [l|] eqn:E; [|done]. intros [= <- <-].
      exists (m, l). split; [done|].
      rewrite merge_sort_Permutation. by apply elem_of_map_to_list.
  - assert (Hids : forall l : list (string * nat),
              (fun l => fst (fst l))
                <$> ((fun kv => (fst kv, weight (heap self (snd kv)),
                                 theta (heap self (snd kv)))) <$> l)
              = fst <$> l).
    { induction l as [|kv l IH]; [done|]. rewrite !fmap_cons. by rewrite IH. }
    rewrite Hids, merge_sort_Permutation. apply NoDup_fst_map_to_list.
  - pose proof by_id_total as Htotal.
    eapply Sorted_fmap; [|apply (Sorted_merge_sort by_id)].
    intros [? ?] [? ?] Hle. exact Hle.
  - rewrite length_fmap, merge_sort_Permutation. by rewrite length_map_to_list.
Qed.

End SummaryFacts.
